(** * Mirage orchestration core: pipeline loading, parameter routing,
      pipeline execution and the background task manager.

    Shallow embedding of [mirage/core/app.py], [mirage/core/loader.py],
    [mirage/core/config.py], [mirage/core/module.py], [mirage/core/task.py]
    and [mirage/core/taskManager.py].

    Python objects that are mutated in place are modelled by explicit state
    passing.  An exception leaves every mutation done before it in place, so
    a raising computation still returns the state it reached. *)

From Stdlib Require Import String Ascii List Arith Bool Lia FinFun.
From Stdlib Require Import Decimal DecimalNat DecimalString.
Import ListNotations.
Open Scope string_scope.

(* ===================================================================== *)
(** ** Python strings *)
(* ===================================================================== *)

Module PyStr.

(** [str(n)] for a non-negative integer. *)
Definition str (n : nat) : string := NilEmpty.string_of_uint (Nat.to_uint n).

(** [c in s] for a one-character string [c]. *)
Fixpoint has_char (c : ascii) (s : string) : bool :=
  match s with
  | EmptyString => false
  | String a s' => Ascii.eqb a c || has_char c s'
  end.

(** [p in s] for strings: [p] occurs in [s] as a substring. *)
Fixpoint str_in (p s : string) : bool :=
  prefix p s ||
  match s with
  | EmptyString => false
  | String _ s' => str_in p s'
  end.

(** [s.split(c)] for a one-character separator: the result is never empty,
    and a string without the separator is returned whole. *)
Fixpoint split (c : ascii) (s : string) : list string :=
  match s with
  | EmptyString => [EmptyString]
  | String a s' =>
      if Ascii.eqb a c then EmptyString :: split c s'
      else match split c s' with
           | w :: ws => String a w :: ws
           | [] => [String a EmptyString]
           end
  end.

Definition pipe : ascii := "|"%char.
Definition dot : ascii := "."%char.
Definition comma : ascii := ","%char.
Definition lparen : ascii := "("%char.
Definition rparen : ascii := ")"%char.

End PyStr.

(* ===================================================================== *)
(** ** Python dictionaries

    A [dict] keeps its keys in insertion order, and the code iterates over
    dictionaries (mapping entries at load time, tasks when listing or
    stopping them), so a dictionary is an association list: assignment to an
    existing key keeps its position, assignment to a new key appends. *)
(* ===================================================================== *)

Module PyDict.

Definition dict (V : Type) : Type := list (string * V).

Definition keys {V} (d : dict V) : list string := map fst d.
Definition values {V} (d : dict V) : list V := map snd d.

(** [d.get(k)] *)
Fixpoint get {V} (d : dict V) (k : string) : option V :=
  match d with
  | [] => None
  | (k', v) :: d' => if String.eqb k' k then Some v else get d' k
  end.

(** [k in d] *)
Definition contains {V} (k : string) (d : dict V) : bool :=
  match get d k with Some _ => true | None => false end.

(** [d[k] = v] *)
Fixpoint setitem {V} (d : dict V) (k : string) (v : V) : dict V :=
  match d with
  | [] => [(k, v)]
  | (k', v') :: d' =>
      if String.eqb k' k then (k', v) :: d' else (k', v') :: setitem d' k v
  end.

(** [del d[k]] *)
Fixpoint delitem {V} (d : dict V) (k : string) : dict V :=
  match d with
  | [] => []
  | (k', v') :: d' =>
      if String.eqb k' k then delitem d' k else (k', v') :: delitem d' k
  end.

(** [d.update(other)] *)
Definition update {V} (d other : dict V) : dict V :=
  fold_left (fun acc kv => setitem acc (fst kv) (snd kv)) other d.

(** A Python dictionary holds each key once. *)
Definition wf {V} (d : dict V) : Prop := NoDup (keys d).

End PyDict.

Import PyStr PyDict.

(* ===================================================================== *)
(** ** Results, exceptions and the state-and-exception monad *)
(* ===================================================================== *)

(** The exceptions the modelled code can raise. *)
Inductive exn : Type :=
| NoModuleLoaded
| IncorrectParameter
| MultipleModulesLoaded
| ValueError
| AttributeError
| KeyError.

Inductive outcome (A : Type) : Type :=
| Return (a : A)
| Raise (e : exn).
Arguments Return {A} a.
Arguments Raise {A} e.

(** A computation over a mutable state [S]: the state comes back in both
    cases, since Python does not undo mutations when an exception unwinds. *)
Definition py (S A : Type) : Type := S -> outcome A * S.

Definition ret {S A} (a : A) : py S A := fun s => (Return a, s).
Definition raise {S A} (e : exn) : py S A := fun s => (Raise e, s).
Definition bind {S A B} (m : py S A) (k : A -> py S B) : py S B :=
  fun s => match m s with
           | (Return a, s') => k a s'
           | (Raise e, s') => (Raise e, s')
           end.

Declare Scope py_scope.
Delimit Scope py_scope with py.
Notation "x <- m ;; k" := (bind m (fun x => k))
  (at level 61, m at next level, right associativity) : py_scope.
Notation "m ;;; k" := (bind m (fun _ => k))
  (at level 61, right associativity) : py_scope.

(** What a Python function hands back when the value is used as a truth
    value: [True], [False], or [None] when the body ends without [return]. *)
Inductive pyret : Type := PyTrue | PyFalse | PyNone.

Definition truthy (r : pyret) : bool :=
  match r with PyTrue => true | _ => false end.

(** Values held in argument tables, outputs and mapping defaults. *)
Definition value : Type := string.

(* ===================================================================== *)
(** ** Background tasks ([core/task.py]) *)
(* ===================================================================== *)

Module Tasks.

Inductive TaskState : Type := stopped | running | ended.

(** [state.value] *)
Definition state_value (s : TaskState) : string :=
  match s with
  | stopped => "stopped"
  | running => "running"
  | ended => "ended"
  end.

(** The function a task runs; only its [__name__] is observed. *)
Record Function : Type := { fn_name : string }.

(** A [Task] is a [multiprocessing.Process].  [name] is the attribute it
    inherits from [Process] ("Task-N", numbered by the runtime), [pid] is
    [None] until the process is started. *)
Record Task : Type := {
  function : Function;
  taskName : string;
  args : list value;
  kwargs : dict value;
  state : TaskState;
  outputFilename : string;
  name : string;
  pid : option nat
}.

(** [Task.__init__]; [ident] is the number the runtime's process counter
    gives the new [Process] object. *)
Definition Task_init (ident : nat) (f : Function) (nm : string)
    (a : list value) (kw : dict value) : Task :=
  {| function := f; taskName := nm; args := a; kwargs := kw;
     state := stopped; outputFilename := "";
     name := "Task-" ++ str ident; pid := None |}.

(** [Task.start]; [tempDir] is [utils.getTempDir()] and [p] the pid the
    operating system gives the forked process. *)
Definition Task_start (tempDir : string) (p : nat) (t : Task) : Task :=
  {| function := function t; taskName := taskName t; args := args t;
     kwargs := kwargs t; state := running;
     outputFilename := tempDir ++ "/" ++ taskName t ++ "-" ++ str p ++ ".out";
     name := name t; pid := Some p |}.

(** [Task.stop] *)
Definition Task_stop (t : Task) : Task :=
  {| function := function t; taskName := taskName t; args := args t;
     kwargs := kwargs t; state := stopped;
     outputFilename := outputFilename t; name := name t; pid := pid t |}.

(** The [finally] clause of [Task.run], executed by the task's own process
    when its function returns or raises. *)
Definition Task_finish (t : Task) : Task :=
  {| function := function t; taskName := taskName t; args := args t;
     kwargs := kwargs t; state := ended;
     outputFilename := outputFilename t; name := name t; pid := pid t |}.

(** [str(self.pid)] *)
Definition str_pid (p : option nat) : string :=
  match p with Some n => str n | None => "None" end.

(** [Task.toList] *)
Definition toList (t : Task) : list string :=
  [str_pid (pid t); taskName t; state_value (state t); outputFilename t].

(** ** The task manager ([core/taskManager.py]) *)

(** [TaskManager.tasks] *)
Definition TaskManager : Type := dict Task.

(** The names [addTask] tries, in order: the base name, then the base name
    suffixed with [.1], [.2], ... *)
Definition candidate (baseName : string) (counter : nat) : string :=
  match counter with
  | 0 => baseName
  | S _ => baseName ++ "." ++ str counter
  end.

(** The [while taskName in self.tasks] loop.  [counter] is the value of the
    loop variable and [taskName] the name under test; the loop gives up
    ([None]) only when [fuel] iterations did not find a free name. *)
Fixpoint addTask_loop (fuel : nat) (tasks : TaskManager) (baseName : string)
    (taskName : string) (counter : nat) : option string :=
  if contains taskName tasks then
    match fuel with
    | 0 => None
    | S fuel' =>
        addTask_loop fuel' tasks baseName
          (baseName ++ "." ++ str counter) (S counter)
    end
  else Some taskName.

(** [TaskManager.addTask]: the resolved name and the new registry.  The loop
    is given one iteration per registered task, which always suffices
    (lemma [addTask_total]). *)
Definition addTask (ident : nat) (f : Function) (nm : string)
    (a : list value) (kw : dict value) (tasks : TaskManager)
    : option (string * TaskManager) :=
  let baseName := if String.eqb nm "" then fn_name f else nm in
  match addTask_loop (length tasks) tasks baseName baseName 1 with
  | Some taskName =>
      Some (taskName, setitem tasks taskName (Task_init ident f taskName a kw))
  | None => None
  end.

(** [TaskManager.startTask] *)
Definition startTask (tempDir : string) (p : nat) (nm : string)
    (tasks : TaskManager) : bool * TaskManager :=
  match get tasks nm with
  | Some t =>
      match state t with
      | stopped => (true, setitem tasks nm (Task_start tempDir p t))
      | _ => (false, tasks)
      end
  | None => (false, tasks)
  end.

(** [TaskManager.stopTask].  Terminating the children and the process acts
    on the operating system only; in the registry the task is stopped and
    then deleted. *)
Definition stopTask (nm : string) (tasks : TaskManager)
    : bool * TaskManager :=
  match get tasks nm with
  | Some t =>
      match state t with
      | running => (true, delitem (setitem tasks nm (Task_stop t)) nm)
      | _ => (false, tasks)
      end
  | None => (false, tasks)
  end.

(** [TaskManager.restartTask] *)
Definition restartTask (ident : nat) (tempDir : string) (p : nat)
    (nm : string) (tasks : TaskManager) : bool * TaskManager :=
  match get tasks nm with
  | Some task =>
      let tasks1 := snd (stopTask nm tasks) in
      let fresh := Task_init ident (function task) nm (args task) (kwargs task) in
      (true, setitem tasks1 nm (Task_start tempDir p fresh))
  | None => (false, tasks)
  end.

(** The state of a task is a value shared with the task's own process (a
    [multiprocessing.Manager().Value]), and that process sets it to
    ["ended"] when the task's function has returned or raised: the
    [finally] clause of [Task.run].  [finish_tasks finishes tasks] is the
    registry once the processes of the running tasks that [finishes] names
    have done so. *)
Definition finish_tasks (finishes : string -> bool) (tasks : TaskManager)
    : TaskManager :=
  map (fun kt =>
         (fst kt,
          match state (snd kt) with
          | running =>
              if finishes (fst kt) then Task_finish (snd kt) else snd kt
          | _ => snd kt
          end))
      tasks.


(** When the processes finish while [stopAllTasks] runs.  In the iteration
    of the loop on [task], [before_check task] names the tasks whose
    processes finish before the loop reads [self.tasks[task].state.value],
    and [before_stop task] those that finish after that read and before
    [stopTask] reads the state again. *)
Record Schedule : Type := {
  before_check : string -> string -> bool;
  before_stop : string -> string -> bool
}.


(** One iteration of the loop of [stopAllTasks]; [self.tasks[task]] raises
    [KeyError] for a missing key.  The state is read here, and read again
    by [stopTask]. *)
Definition stopAllTasks_step (sched : Schedule) (task : string)
    : py TaskManager unit :=
  fun tasks =>
    let tasks1 := finish_tasks (before_check sched task) tasks in
    match get tasks1 task with
    | Some t =>
        match state t with
        | running =>
            let tasks2 := finish_tasks (before_stop sched task) tasks1 in
            (Return tt, snd (stopTask task tasks2))
        | _ => (Return tt, delitem tasks1 task)
        end
    | None => (Raise KeyError, tasks1)
    end.

(** [for task in copy(self.tasks): ...] *)
Fixpoint stopAllTasks_loop (sched : Schedule) (todo : list string)
    : py TaskManager unit :=
  match todo with
  | [] => ret tt
  | task :: todo' =>
      (stopAllTasks_step sched task ;;; stopAllTasks_loop sched todo')%py
  end.

(** [TaskManager.stopAllTasks] *)
Definition stopAllTasks (sched : Schedule) : py TaskManager unit :=
  fun tasks => stopAllTasks_loop sched (keys tasks) tasks.

(** [TaskManager.getTaskState] *)
Definition getTaskState (nm : string) (tasks : TaskManager) : option string :=
  match get tasks nm with
  | Some t => Some (state_value (state t))
  | None => None
  end.

(** [TaskManager.getTaskPID]; the inner option is the task's [pid], which
    is [None] before the task is started. *)
Definition getTaskPID (nm : string) (tasks : TaskManager)
    : option (option nat) :=
  match get tasks nm with
  | Some t => Some (pid t)
  | None => None
  end.

(** [TaskManager.getTasksList] *)
Definition getTasksList (pattern : string) (tasks : TaskManager)
    : list (list string) :=
  map toList
    (filter (fun t => str_in pattern (name t)
                      || str_in pattern (str_pid (pid t))
                      || str_in pattern (state_value (state t)))
            (values tasks)).

(** Successive calls [addTask(f, nm, a, kw)] with the same requested name,
    each with its own function and arguments: the names returned, in
    order, and the registry after the last call. *)
Fixpoint addTasks (calls : list (nat * Function * list value * dict value))
    (nm : string) (tasks : TaskManager)
    : option (list string * TaskManager) :=
  match calls with
  | [] => Some ([], tasks)
  | (ident, f, a, kw) :: rest =>
      match addTask ident f nm a kw tasks with
      | Some (n, tasks1) =>
          match addTasks rest nm tasks1 with
          | Some (ns, tasks2) => Some (n :: ns, tasks2)
          | None => None
          end
      | None => None
      end
  end.

(** The registry as the manager keeps it: each key once, and every task
    stored under its own [taskName]. *)
Definition registry_ok (tasks : TaskManager) : Prop :=
  wf tasks /\ Forall (fun kt => taskName (snd kt) = fst kt) tasks.


(** The column of [getTasksList] that holds the task's name. *)
Definition row_name (row : list string) : string := nth 1 row "".

(** A registry with a stopped, a running and an ended task. *)
Definition sample_tasks : TaskManager :=
  [("scan", Task_init 1 {| fn_name := "scan" |} "scan" [] []);
   ("sniff",
    Task_start "/tmp/mirage" 4242
      (Task_init 2 {| fn_name := "sniff" |} "sniff" [] []));
   ("probe",
    Task_finish
      (Task_start "/tmp/mirage" 4243
         (Task_init 3 {| fn_name := "probe" |} "probe" [] [])))].


End Tasks.

(* ===================================================================== *)
(** ** Executable units ([core/module.py]) *)
(* ===================================================================== *)

(** What [Module.out] builds: [{"success": ..., "output": ...}]. *)
Record ExecOutput : Type := { success : bool; output : dict value }.

(** A live unit instance.  [wireless] tells whether the instance is a
    [WirelessModule]; [behaviour] stands for the unit's own
    [prerun]/[run]/[postrun]: from the argument table it is started with it
    yields the result and the argument table it leaves behind. *)
Record MirageModule : Type := {
  className : string;
  args : dict value;
  dynamicArgs : bool;
  wireless : bool;
  sdrConfig : dict value;
  behaviour : dict value -> ExecOutput * dict value
}.

Definition with_args (m : MirageModule) (a : dict value) : MirageModule :=
  {| className := className m; args := a; dynamicArgs := dynamicArgs m;
     wireless := wireless m; sdrConfig := sdrConfig m;
     behaviour := behaviour m |}.

Definition with_sdrConfig (m : MirageModule) (c : dict value) : MirageModule :=
  {| className := className m; args := args m; dynamicArgs := dynamicArgs m;
     wireless := wireless m; sdrConfig := c; behaviour := behaviour m |}.

(** [Module.execute] *)
Definition execute (m : MirageModule) : ExecOutput * MirageModule :=
  let (out, a) := behaviour m (args m) in (out, with_args m a).

(* ===================================================================== *)
(** ** Shortcuts ([core/config.py]) *)
(* ===================================================================== *)

(** One entry of a shortcut's mapping:
    [{"parameters": [...], "value": ...}]. *)
Record Mapping : Type := { parameters : list string; mvalue : option value }.

(** [{"modules": ..., "description": ..., "mapping": ...}] *)
Record Shortcut : Type := {
  sc_modules : string;
  sc_description : string;
  sc_mapping : dict Mapping
}.

(** The value of one option of a [shortcut:] section, as
    [Config.generateShortcuts] reads it: [names(default)] or [names]. *)
Definition parse_mapping (v : string) : Mapping :=
  if has_char lparen v && has_char rparen v then
    let names := hd "" (split lparen v) in
    let default_value := hd "" (split rparen (nth 1 (split lparen v) "")) in
    {| parameters := split comma names; mvalue := Some default_value |}
  else {| parameters := split comma v; mvalue := None |}.

(** The mapping dictionaries live in [loaded_shortcuts] and are shared: a
    shortcut slot holds a reference to the dictionary of its shortcut, which
    here is the shortcut's key.  The keys of [loaded_shortcuts] never change;
    a key that is not there reads as an empty mapping. *)
Definition deref (store : dict Shortcut) (ref : string) : dict Mapping :=
  match get store ref with
  | Some sc => sc_mapping sc
  | None => []
  end.

(** [shortcut_mapping["value"] = value] for the entry [nm] of the mapping
    that [ref] points to. *)
Definition commit (store : dict Shortcut) (ref nm : string) (v : value)
    : dict Shortcut :=
  match get store ref with
  | Some sc =>
      match get (sc_mapping sc) nm with
      | Some mp =>
          setitem store ref
            {| sc_modules := sc_modules sc;
               sc_description := sc_description sc;
               sc_mapping :=
                 setitem (sc_mapping sc) nm
                   {| parameters := parameters mp; mvalue := Some v |} |}
      | None => store
      end
  | None => store
  end.

(* ===================================================================== *)
(** ** Pipeline slots ([App.modules]) *)
(* ===================================================================== *)

(** [{"name": ..., "module": ...}]; [module] is [None] when the loader did
    not produce an instance. *)
Record ModuleEntry : Type := {
  entry_name : string;
  entry_module : option MirageModule
}.

(** The two shapes of dictionaries [load] puts in [self.modules].  The
    members of a shortcut are always dictionaries of the first shape. *)
Inductive Slot : Type :=
| ModuleSlot (e : ModuleEntry)
| ShortcutSlot (nm : string) (shortcut : list ModuleEntry) (mapping : string).

Definition slot_name (s : Slot) : string :=
  match s with
  | ModuleSlot e => entry_name e
  | ShortcutSlot nm _ _ => nm
  end.

(** Observable events: the messages handed to [io], and for the executor
    each call of a unit's [execute], with the slot's name and the argument
    table the unit runs with. *)
Inductive event : Type :=
| Info (msg : string)
| Fail (msg : string)
| Error (msg : string)
| Executed (nm : string) (a : dict value).

(** The application: the loader's classes (each with what its constructor
    yields, an instance or the message of the exception it raises), the
    configuration's [datas], the shortcuts, the installed pipeline, the
    prompt and the events so far. *)
Record App : Type := {
  modulesList : dict (MirageModule + string);
  datas : dict (dict value);
  loaded_shortcuts : dict Shortcut;
  modules : list Slot;
  prompt : string;
  log : list event
}.

Section Pipeline.

(** The keys of [wireless.SDRDevice.SDR_PARAMETERS]; the table belongs to
    the wireless library, which is taken as given. *)
Variable SDR_PARAMETERS : list string.

(* --------------------------------------------------------------------- *)
(** *** The loader and the configuration *)

(** [Loader.load]: the instance, if any, and the message it prints. *)
Definition Loader_load (ml : dict (MirageModule + string))
    (moduleName : string) : option MirageModule * list event :=
  match get ml moduleName with
  | Some (inl m) => (Some m, [])
  | Some (inr msg) =>
      (None, [Error ("Failed to load module " ++ moduleName ++ ": " ++ msg)])
  | None => (None, [Fail ("Module " ++ moduleName ++ " not found")])
  end.

(** [Config.dataExists] *)
Definition dataExists (ds : dict (dict value)) (module_name arg : string)
    : bool :=
  match get ds module_name with
  | Some d => contains arg d
  | None => false
  end.

(** [Config.getData]; [None] stands for the [KeyError]. *)
Definition getData (ds : dict (dict value)) (module_name arg : string)
    : option value :=
  match get ds module_name with
  | Some d => get d arg
  | None => None
  end.

(** The loop of [load] over [output.args] that installs the values the
    configuration file gives for the unit [m]. *)
Definition apply_config (ds : dict (dict value)) (m : string)
    (out : MirageModule) : MirageModule :=
  fold_left
    (fun o argument =>
       if dataExists ds m argument then
         match getData ds m argument with
         | Some v => with_args o (setitem (args o) argument v)
         | None => o
         end
       else o)
    (keys (args out)) out.

(* --------------------------------------------------------------------- *)
(** *** [App._set] *)

(** [_set] on a list holding one [{"name", "module"}] dictionary: the
    branch [len(modules_list) == 1] for a dictionary without ["shortcut"]. *)
Definition set_entry (nm : string) (v : value) (e : ModuleEntry)
    : outcome pyret * ModuleEntry :=
  match entry_module e with
  | Some m =>
      if dynamicArgs m || contains nm (args m) then
        (Return PyTrue,
         {| entry_name := entry_name e;
            entry_module := Some (with_args m (setitem (args m) nm v)) |})
      else if existsb (String.eqb nm) SDR_PARAMETERS && wireless m then
        (Return PyTrue,
         {| entry_name := entry_name e;
            entry_module :=
              Some (with_sdrConfig m (setitem (sdrConfig m) nm v)) |})
      else (Raise IncorrectParameter, e)
  | None => (Return PyFalse, e)
  end.

(** The loop [for module in modules_list] of the last branch of [_set], on
    the members of a shortcut: the first member that holds an instance and
    has the display name [module_name] receives the value; when no member
    matches, the loop ends and the function returns [None]. *)
Fixpoint route_entries (module_name arg_name : string) (v : value)
    (l : list ModuleEntry) : outcome pyret * list ModuleEntry :=
  match l with
  | [] => (Return PyNone, [])
  | e :: rest =>
      match entry_module e with
      | Some _ =>
          if String.eqb module_name (entry_name e) then
            let (r, e') := set_entry arg_name v e in (r, e' :: rest)
          else
            let (r, rest') := route_entries module_name arg_name v rest in
            (r, e :: rest')
      | None =>
          let (r, rest') := route_entries module_name arg_name v rest in
          (r, e :: rest')
      end
  end.

(** [_set(name, value, module["shortcut"])]: [_set] on the members of a
    shortcut, which are all [{"name", "module"}] dictionaries. *)
Definition _set_entries (nm : string) (v : value) (l : list ModuleEntry)
    : outcome pyret * list ModuleEntry :=
  match l with
  | [] => (Raise NoModuleLoaded, l)
  | [e] => let (r, e') := set_entry nm v e in (r, [e'])
  | _ =>
      if has_char dot nm then
        match split dot nm with
        | [module_name; arg_name] => route_entries module_name arg_name v l
        | _ => (Raise ValueError, l)
        end
      else (Raise MultipleModulesLoaded, l)
  end.

(** [for parameters_name in shortcut_mapping["parameters"]:
       success = success and self._set(parameters_name, value, ...)] *)
Fixpoint fan_out (targets : list string) (v : value) (success : pyret)
    (l : list ModuleEntry) : outcome pyret * list ModuleEntry :=
  match targets with
  | [] => (Return success, l)
  | parameters_name :: rest =>
      if truthy success then
        match _set_entries parameters_name v l with
        | (Return r, l') => fan_out rest v r l'
        | (Raise x, l') => (Raise x, l')
        end
      else fan_out rest v success l
  end.

(** The body shared by the two places where [_set] handles a shortcut
    dictionary: fan out to the targets, then commit the value when the
    result is true. *)
Definition set_shortcut (nm : string) (v : value)
    (shortcut : list ModuleEntry) (mapping : string) (store : dict Shortcut)
    : outcome pyret * (list ModuleEntry * dict Shortcut) :=
  match get (deref store mapping) nm with
  | Some shortcut_mapping =>
      match fan_out (parameters shortcut_mapping) v PyTrue shortcut with
      | (Return r, shortcut') =>
          (Return r,
           (shortcut', if truthy r then commit store mapping nm v else store))
      | (Raise x, shortcut') => (Raise x, (shortcut', store))
      end
  | None => (Raise IncorrectParameter, (shortcut, store))
  end.

(** The loop [for module in modules_list] of the last branch of [_set]. *)
Fixpoint route (module_name arg_name : string) (v : value)
    (l : list Slot) (store : dict Shortcut)
    : outcome pyret * (list Slot * dict Shortcut) :=
  match l with
  | [] => (Return PyNone, ([], store))
  | s :: rest =>
      let continue :=
        let '(r, (rest', store')) :=
          route module_name arg_name v rest store in
        (r, (s :: rest', store')) in
      match s with
      | ModuleSlot e =>
          match entry_module e with
          | Some _ =>
              if String.eqb module_name (entry_name e) then
                let (r, e') := set_entry arg_name v e in
                (r, (ModuleSlot e' :: rest, store))
              else continue
          | None => continue
          end
      | ShortcutSlot snm shortcut mapping =>
          if String.eqb module_name snm then
            let '(r, (shortcut', store')) :=
              set_shortcut arg_name v shortcut mapping store in
            (r, (ShortcutSlot snm shortcut' mapping :: rest, store'))
          else continue
      end
  end.

(** [App._set] on a list of slots; the state is the list, whose
    dictionaries are updated in place, and the shortcut store. *)
Definition _set (nm : string) (v : value) (modules_list : list Slot)
    (store : dict Shortcut) : outcome pyret * (list Slot * dict Shortcut) :=
  match modules_list with
  | [] => (Raise NoModuleLoaded, (modules_list, store))
  | [ModuleSlot e] =>
      let (r, e') := set_entry nm v e in (r, ([ModuleSlot e'], store))
  | [ShortcutSlot snm shortcut mapping] =>
      let '(r, (shortcut', store')) :=
        set_shortcut nm v shortcut mapping store in
      (r, ([ShortcutSlot snm shortcut' mapping], store'))
  | _ =>
      if has_char dot nm then
        match split dot nm with
        | [module_name; arg_name] =>
            route module_name arg_name v modules_list store
        | _ => (Raise ValueError, (modules_list, store))
        end
      else (Raise MultipleModulesLoaded, (modules_list, store))
  end.

Definition with_pipeline (app : App) (ms : list Slot) (st : dict Shortcut)
    (lg : list event) : App :=
  {| modulesList := modulesList app; datas := datas app;
     loaded_shortcuts := st; modules := ms; prompt := prompt app;
     log := lg |}.

(** [App.set].  The last clause is [except Exception]: of the exceptions of
    [_set] only the [ValueError] of the tuple assignment reaches it, with
    the message Python gives it. *)
Definition set (nm : string) (v : value) (app : App) : App :=
  match _set nm v (modules app) (loaded_shortcuts app) with
  | (Return _, (ms, st)) => with_pipeline app ms st (log app)
  | (Raise NoModuleLoaded, (ms, st)) =>
      with_pipeline app ms st (log app ++ [Fail "No module loaded!"])%list
  | (Raise MultipleModulesLoaded, (ms, st)) =>
      with_pipeline app ms st
        (log app ++
         [Fail "No corresponding parameter! Multiple modules are loaded, did you indicate the module's name?"])%list
  | (Raise IncorrectParameter, (ms, st)) =>
      with_pipeline app ms st (log app ++ [Fail "No corresponding parameter!"])%list
  | (Raise _, (ms, st)) =>
      with_pipeline app ms st
        (log app ++
         [Error "Failed to set parameter: too many values to unpack (expected 2)"])%list
  end.

(* --------------------------------------------------------------------- *)
(** *** [App.load] *)

(** [n + str(counter) if len(...) > 1 else n] *)
Definition display_name (multi : bool) (n : string) (counter : nat) : string :=
  if multi then n ++ str counter else n.

(** The loop over the shortcut's mapping for the member just appended:
    [self._set(argument, mapping["value"], [shortcut_modules[-1]])] for every
    entry with a value.  The list holds one [{"name", "module"}] dictionary,
    so the call is [set_entry] (lemma [_set_module_singleton]); its result
    is dropped, an exception leaves [load]. *)
Fixpoint apply_defaults (mp : dict Mapping) (e : ModuleEntry)
    : outcome unit * ModuleEntry :=
  match mp with
  | [] => (Return tt, e)
  | (argument, mapping) :: rest =>
      match mvalue mapping with
      | Some v =>
          match set_entry argument v e with
          | (Return _, e') => apply_defaults rest e'
          | (Raise x, e') => (Raise x, e')
          end
      | None => apply_defaults rest e
      end
  end.

(** [for n in shortcut_modules_list: ...]; the state is the event log. *)
Fixpoint load_chain (ml : dict (MirageModule + string)) (mp : dict Mapping)
    (multi : bool) (chain : list string) (shortcut_counter : nat)
    : py (list event) (list ModuleEntry) :=
  fun lg =>
    match chain with
    | [] => (Return [], lg)
    | n :: rest =>
        let (out, msgs) := Loader_load ml n in
        let e := {| entry_name := display_name multi n shortcut_counter;
                    entry_module := out |} in
        match apply_defaults mp e with
        | (Return _, e') =>
            match load_chain ml mp multi rest (S shortcut_counter)
                    (lg ++ msgs)%list with
            | (Return es, lg') => (Return (e' :: es), lg')
            | (Raise x, lg') => (Raise x, lg')
            end
        | (Raise x, _) => (Raise x, (lg ++ msgs)%list)
        end
    end.

(** [for m in modules: ...].  The result is [tmp_modules], or [None] when
    the loop was left with [no_error = False]. *)
Fixpoint load_loop (app : App) (multi : bool) (ms : list string)
    (counter : nat) : py (list event) (option (list Slot)) :=
  fun lg =>
    match ms with
    | [] => (Return (Some []), lg)
    | m :: rest =>
        let (out, msgs) := Loader_load (modulesList app) m in
        let continue (s : Slot) (lg1 : list event) :=
          match load_loop app multi rest (S counter) lg1 with
          | (Return (Some tmp), lg') => (Return (Some (s :: tmp)), lg')
          | r => r
          end in
        match out with
        | Some o =>
            continue
              (ModuleSlot
                 {| entry_name := display_name multi m counter;
                    entry_module := Some (apply_config (datas app) m o) |})
              (lg ++ msgs ++ [Info ("Module " ++ m ++ " loaded!")])%list
        | None =>
            match get (loaded_shortcuts app) m with
            | Some sc =>
                let chain := split pipe (sc_modules sc) in
                match load_chain (modulesList app) (sc_mapping sc)
                        (Nat.ltb 1 (length chain)) chain 1
                        (lg ++ msgs ++ [Info ("Shortcut " ++ m ++ " loaded!")])%list
                with
                | (Return shortcut_modules, lg1) =>
                    continue
                      (ShortcutSlot (display_name multi m counter)
                         shortcut_modules m)
                      lg1
                | (Raise x, lg1) => (Raise x, lg1)
                end
            | None =>
                (Return None,
                 (lg ++ msgs ++ [Fail ("Unknown module " ++ m ++ "!")])%list)
            end
        end
    end.

(** [module_name.split("|") if "|" in module_name else [module_name]] *)
Definition components (module_name : string) : list string :=
  if has_char pipe module_name then split pipe module_name else [module_name].

(** [App.load].  The prompt is the text handed to [io.colorize]. *)
Definition load (module_name : string) : py App unit :=
  fun app =>
    let ms := components module_name in
    match load_loop app (Nat.ltb 1 (length ms)) ms 1 (log app) with
    | (Return (Some tmp_modules), lg) =>
        (Return tt,
         {| modulesList := modulesList app; datas := datas app;
            loaded_shortcuts := loaded_shortcuts app;
            modules := tmp_modules;
            prompt := " << " ++ module_name ++ " >>~~> ";
            log := lg |})
    | (Return None, lg) =>
        (Return tt, with_pipeline app (modules app) (loaded_shortcuts app) lg)
    | (Raise x, lg) =>
        (Raise x, with_pipeline app (modules app) (loaded_shortcuts app) lg)
    end.

(* --------------------------------------------------------------------- *)
(** *** [App.run] *)

(** [for arg in args: if arg in m.args or m.dynamicArgs:
       m.args[arg] = args[arg]] *)
Definition carry (carried : dict value) (m : MirageModule) : MirageModule :=
  fold_left
    (fun m kv =>
       if contains (fst kv) (args m) || dynamicArgs m then
         with_args m (setitem (args m) (fst kv) (snd kv))
       else m)
    carried m.

(** What the executor threads through the stages: the carried outputs (the
    local [args] of [run]) and the event log. *)
Record RunState : Type := { carried : dict value; events : list event }.

(** One stage: carry the outputs in, execute, and on success merge the
    output.  The boolean tells whether the stage reported success. *)
Definition run_stage (nm : string) (m : MirageModule) (rs : RunState)
    : bool * MirageModule * RunState :=
  let m1 := carry (carried rs) m in
  let (out, m2) := execute m1 in
  let evs := (events rs ++ [Executed nm (args m1)])%list in
  if success out then
    (true, m2, {| carried := update (carried rs) (output out); events := evs |})
  else (false, m2, {| carried := carried rs; events := evs |}).

(** [for shortcut_module in module["shortcut"]: ...]; a failing member
    ends this loop with [break]. *)
Fixpoint run_shortcut (snm : string) (l : list ModuleEntry) (rs : RunState)
    : outcome unit * (list ModuleEntry * RunState) :=
  match l with
  | [] => (Return tt, ([], rs))
  | e :: rest =>
      match entry_module e with
      | None => (Raise AttributeError, (l, rs))
      | Some m =>
          let '(ok, m', rs1) := run_stage (entry_name e) m rs in
          let e' := {| entry_name := entry_name e; entry_module := Some m' |} in
          if ok then
            let '(r, (rest', rs2)) := run_shortcut snm rest rs1 in
            (r, (e' :: rest', rs2))
          else
            (Return tt,
             (e' :: rest,
              {| carried := carried rs1;
                 events := (events rs1 ++
                   [Fail ("Execution of shortcut " ++ snm ++ " failed!")])%list |}))
      end
  end.

(** [for module in self.modules: ...]; a failing unit slot ends this loop
    with [break]. *)
Fixpoint run_loop (l : list Slot) (rs : RunState)
    : outcome unit * (list Slot * RunState) :=
  match l with
  | [] => (Return tt, ([], rs))
  | s :: rest =>
      let continue (s' : Slot) (rs1 : RunState) :=
        let '(r, (rest', rs2)) := run_loop rest rs1 in
        (r, (s' :: rest', rs2)) in
      match s with
      | ModuleSlot e =>
          match entry_module e with
          | Some m =>
              let '(ok, m', rs1) := run_stage (entry_name e) m rs in
              let s' := ModuleSlot {| entry_name := entry_name e;
                                      entry_module := Some m' |} in
              if ok then continue s' rs1
              else
                (Return tt,
                 (s' :: rest,
                  {| carried := carried rs1;
                     events := (events rs1 ++
                       [Fail ("Execution of module " ++ entry_name e
                              ++ " failed!")])%list |}))
          | None => continue s rs
          end
      | ShortcutSlot snm shortcut mapping =>
          match run_shortcut snm shortcut rs with
          | (Return _, (shortcut', rs1)) =>
              continue (ShortcutSlot snm shortcut' mapping) rs1
          | (Raise x, (shortcut', rs1)) =>
              (Raise x, (ShortcutSlot snm shortcut' mapping :: rest, rs1))
          end
      end
  end.

(** [App.run] *)
Definition run : py App unit :=
  fun app =>
    let '(r, (ms, rs)) :=
      run_loop (modules app) {| carried := []; events := log app |} in
    (r, with_pipeline app ms (loaded_shortcuts app) (events rs)).

(** The units a log shows as executed, in order. *)
Definition executed (lg : list event) : list (string * dict value) :=
  flat_map (fun ev => match ev with
                      | Executed nm a => [(nm, a)]
                      | _ => []
                      end) lg.

(* --------------------------------------------------------------------- *)
(** *** Reading a target back

    The counterpart of [_set] used to state what a call has set: the value
    that the unit argument addressed by [nm] holds, resolved as [_set]
    resolves it (argument table first, then the device configuration; a
    dotted name goes to the first member with that display name). *)

Definition read_entry (nm : string) (e : ModuleEntry) : option value :=
  match entry_module e with
  | Some m =>
      if dynamicArgs m || contains nm (args m) then get (args m) nm
      else if existsb (String.eqb nm) SDR_PARAMETERS && wireless m then
        get (sdrConfig m) nm
      else None
  | None => None
  end.

Fixpoint find_entry (module_name : string) (l : list ModuleEntry)
    : option ModuleEntry :=
  match l with
  | [] => None
  | e :: rest =>
      match entry_module e with
      | Some _ =>
          if String.eqb module_name (entry_name e) then Some e
          else find_entry module_name rest
      | None => find_entry module_name rest
      end
  end.

Definition read_dotted (nm : string) (l : list ModuleEntry)
    : option value :=
  if has_char dot nm then
    match split dot nm with
    | [module_name; arg_name] =>
        match find_entry module_name l with
        | Some e => read_entry arg_name e
        | None => None
        end
    | _ => None
    end
  else None.

Definition read_entries (nm : string) (l : list ModuleEntry)
    : option value :=
  match l with
  | [] => None
  | [e] => read_entry nm e
  | _ => read_dotted nm l
  end.

(** The mapping entry [nm] of the shortcut [ref] in the store. *)
Definition mapping_entry (store : dict Shortcut) (ref nm : string)
    : option Mapping :=
  get (deref store ref) nm.

End Pipeline.

(** The display names of a pipeline of the components [ms], in the spec's
    words: the bare names for a single component, otherwise each name
    followed by its 1-based position. *)
Definition suffixed_names (ms : list string) : list string :=
  if Nat.ltb 1 (length ms) then
    map (fun im => snd im ++ str (fst im)) (combine (seq 1 (length ms)) ms)
  else ms.

(** A component that is neither a unit the loader can instantiate nor a
    known shortcut. *)
Definition unresolvable (app : App) (m : string) : Prop :=
  fst (Loader_load (modulesList app) m) = None /\
  get (loaded_shortcuts app) m = None.

(* ===================================================================== *)
(** ** Completion lists, the configuration dictionary and scenarios *)
(* ===================================================================== *)

(** Whether a unit takes the parameter [nm]: it accepts undeclared
    arguments, declares [nm], or [nm] is a device parameter and the unit is
    wireless.  This is the condition of the first two branches of [_set]
    for a unit. *)
Definition accepts (sdr : list string) (m : MirageModule) (nm : string)
    : bool :=
  dynamicArgs m || contains nm (args m)
  || existsb (String.eqb nm) sdr && wireless m.

(** [Loader.getModulesNames] *)
Definition getModulesNames (ml : dict (MirageModule + string)) : list string :=
  keys ml.

(** [App._autocompleteModules] *)
Definition _autocompleteModules (app : App) : list string :=
  (getModulesNames (modulesList app) ++ keys (loaded_shortcuts app))%list.

(** The names [_autocompleteParameters] builds for one slot of a pipeline
    of several slots. *)
Definition slot_parameters (store : dict Shortcut) (s : Slot) : list string :=
  match s with
  | ModuleSlot e =>
      match entry_module e with
      | Some m => map (fun i => entry_name e ++ "." ++ i) (keys (args m))
      | None => []
      end
  | ShortcutSlot nm _ mapping =>
      map (fun i => nm ++ "." ++ i) (keys (deref store mapping))
  end.

(** [App._autocompleteParameters]; with one slot whose ["module"] is
    [None] the attribute access raises. *)
Definition _autocompleteParameters (app : App) : outcome (list string) :=
  match modules app with
  | [] => Return []
  | [ModuleSlot e] =>
      match entry_module e with
      | Some m => Return (keys (args m))
      | None => Raise AttributeError
      end
  | [ShortcutSlot _ _ mapping] =>
      Return (keys (deref (loaded_shortcuts app) mapping))
  | l => Return (flat_map (slot_parameters (loaded_shortcuts app)) l)
  end.

(** [Config.get] and [Config.set] on the dictionary [Config.config];
    [None] is Python's [None], the default of [default].  Writing the
    dictionary to the configuration file is not part of the model. *)
Definition Config_get (config : dict value) (key : string)
    (default : option value) : option value :=
  match get config key with
  | Some v => Some v
  | None => default
  end.

Definition Config_set (config : dict value) (key : string) (v : value)
    : dict value :=
  setitem config key v.

(** What [io.chart(columns, rows, title)] is called with; the title is the
    text [io.colorize] is given, with its colour. *)
Record Chart : Type := {
  columns : list string;
  rows : list (list string);
  title : string;
  colour : string
}.

(** [(module["name"] + "." + argument) if len(self.modules) > 1 else
    argument] *)
Definition shown_name (multi : bool) (nm argument : string) : string :=
  if multi then nm ++ "." ++ argument else argument.

(** The loop of [showargs] over the slots: the charts drawn, in order, and
    how the loop ended.  A unit dictionary whose ["module"] is [None]
    raises [AttributeError], after the charts of the slots before it. *)
Fixpoint showargs_loop (multi : bool) (store : dict Shortcut) (l : list Slot)
    : outcome unit * list Chart :=
  match l with
  | [] => (Return tt, [])
  | s :: rest =>
      let continue (c : Chart) :=
        let (r, cs) := showargs_loop multi store rest in (r, c :: cs) in
      match s with
      | ModuleSlot e =>
          match entry_module e with
          | Some m =>
              continue
                {| columns := ["Name"; "Value"];
                   rows := map (fun kv => [shown_name multi (entry_name e) (fst kv);
                                           snd kv])
                             (args m);
                   title := entry_name e; colour := "yellow" |}
          | None => (Raise AttributeError, [])
          end
      | ShortcutSlot nm _ mapping =>
          continue
            {| columns := ["Name"; "Value"];
               rows := map (fun kv => [shown_name multi nm (fst kv);
                                       match mvalue (snd kv) with
                                       | Some v => v
                                       | None => "<auto>"
                                       end])
                         (deref store mapping);
               title := nm; colour := "green" |}
      end
  end.

(** [App.showargs] *)
Definition showargs (app : App) : outcome unit * list Chart :=
  showargs_loop (Nat.ltb 1 (length (modules app))) (loaded_shortcuts app)
    (modules app).

(** The parameter names a chart shows: its first column. *)
Definition shown_names (c : Chart) : list string :=
  map (fun row => hd "" row) (rows c).

(** [sep.join(l)] for a one-character separator. *)
Fixpoint join (sep : ascii) (l : list string) : string :=
  match l with
  | [] => ""
  | [x] => x
  | x :: rest => x ++ String sep (join sep rest)
  end.

(** What calling an attribute of a scenario as a signal handler yields: a
    value, seen as a truth value, or an exception (also when the attribute
    is not callable). *)
Inductive handler : Type :=
| Returns (r : pyret)
| Fails.

(** A scenario: its name and its attributes, as [dir(self)] lists them. *)
Record Scenario : Type := {
  scenario_name : string;
  attributes : dict handler
}.

(** [Scenario.receiveSignal]: the value returned and the message printed. *)
Definition receiveSignal (sc : Scenario) (signal : string)
    : pyret * list event :=
  if existsb (String.eqb signal)
       (filter (fun i => negb (str_in "__" i)) (keys (attributes sc)))
  then
    match get (attributes sc) signal with
    | Some (Returns r) => (r, [])
    | _ =>
        (PyNone,
         [Fail ("An error occurred in scenario " ++ scenario_name sc ++ "!")])
    end
  else (PyTrue, []).

(** The wrapper [scenarioSignal] puts around a method of a unit: whether
    the method itself is run, and the message printed.  [None] stands for
    a unit without the attribute [scenario]. *)
Definition scenarioSignal (scenario : option Scenario) (signal : string)
    : bool * list event :=
  match scenario with
  | Some sc =>
      let (defaultBehaviour, msgs) := receiveSignal sc signal in
      (match defaultBehaviour with
       | PyNone => true
       | r => truthy r
       end, msgs)
  | None => (true, [])
  end.

(* ===================================================================== *)
(** ** Sample units, shortcuts and pipelines *)
(* ===================================================================== *)

(** A unit with the argument table [a] that reports [ok] with the output
    [out] and leaves its arguments as they are. *)
Definition sample_unit (cls : string) (a : dict value) (ok : bool)
    (out : dict value) : MirageModule :=
  {| className := cls; args := a; dynamicArgs := false; wireless := false;
     sdrConfig := [];
     behaviour := fun a' => ({| success := ok; output := out |}, a') |}.

Definition sample_entry (nm : string) (m : MirageModule) : ModuleEntry :=
  {| entry_name := nm; entry_module := Some m |}.

(** The shortcut [conn] expands to [ble_connect]; its parameter [TARGET]
    fans out to the arguments [TARGET] and [ADDRESS]. *)
Definition conn_store : dict Shortcut :=
  [("conn",
    {| sc_modules := "ble_connect"; sc_description := "connect";
       sc_mapping := [("TARGET", parse_mapping "TARGET,ADDRESS")] |})].

(** A [ble_connect] that declares [TARGET] only, and one that declares
    both targets. *)
Definition conn_members_partial : list ModuleEntry :=
  [sample_entry "ble_connect"
     (sample_unit "ble_connect" [("TARGET", "")] true [])].

Definition conn_members_full : list ModuleEntry :=
  [sample_entry "ble_connect"
     (sample_unit "ble_connect" [("TARGET", ""); ("ADDRESS", "")] true [])].

(** An application whose loader knows the units [x], [ble_scan] and
    [ble_connect], and whose shortcut [scan] expands to [ble_scan] and maps
    its parameter [INTERFACE] to the argument [IFACE] with default [hci1]. *)
Definition sample_app : App :=
  {| modulesList :=
       [("x", inl (sample_unit "x" [("A", "")] true []));
        ("ble_scan",
         inl (sample_unit "ble_scan"
                [("IFACE", "hci0"); ("INTERFACE", "")] true []));
        ("ble_connect",
         inl (sample_unit "ble_connect" [("TARGET", "")] true []))];
     datas := [];
     loaded_shortcuts :=
       [("scan",
         {| sc_modules := "ble_scan"; sc_description := "scan";
            sc_mapping := [("INTERFACE", parse_mapping "IFACE(hci1)")] |})];
     modules := []; prompt := ""; log := [] |}.

(** The same with a [ble_scan] that declares [IFACE] only. *)
Definition sample_app_strict : App :=
  {| modulesList :=
       [("ble_scan", inl (sample_unit "ble_scan" [("IFACE", "hci0")] true []))];
     datas := [];
     loaded_shortcuts := loaded_shortcuts sample_app;
     modules := []; prompt := ""; log := [] |}.

Definition with_modules (app : App) (ms : list Slot) : App :=
  {| modulesList := modulesList app; datas := datas app;
     loaded_shortcuts := loaded_shortcuts app; modules := ms;
     prompt := prompt app; log := log app |}.

(** Three stages, the first a shortcut whose only member fails. *)
Definition failing_shortcut_pipeline : list Slot :=
  [ShortcutSlot "scan1"
     [sample_entry "ble_scan" (sample_unit "ble_scan" [] false [])] "scan";
   ModuleSlot (sample_entry "ble_connect2"
                 (sample_unit "ble_connect" [("TARGET", "")] true []));
   ModuleSlot (sample_entry "x3" (sample_unit "x" [("A", "")] true []))].

(** Two stages: the first outputs [TARGET], the second declares it and has
    a value set by the user.  [ok] is what the first stage reports. *)
Definition carrying_pipeline (ok : bool) : list Slot :=
  [ModuleSlot (sample_entry "ble_scan1"
                 (sample_unit "ble_scan" [] ok [("TARGET", "AA:BB")]));
   ModuleSlot (sample_entry "ble_connect2"
                 (sample_unit "ble_connect" [("TARGET", "user")] true []))].

(** An application whose shortcut [ghost] expands to the unit [nope], which
    the loader does not know. *)
Definition sample_app_dangling : App :=
  {| modulesList := modulesList sample_app; datas := [];
     loaded_shortcuts :=
       [("ghost",
         {| sc_modules := "nope"; sc_description := "dangling";
            sc_mapping := [("INTERFACE", parse_mapping "INTERFACE(hci1)")] |})];
     modules := []; prompt := ""; log := [] |}.

(** The shortcut [pair] expands to [ble_scan|ble_connect]; its parameter
    [TARGET] maps to [targets], written as in the configuration file. *)
Definition pair_store (targets : string) : dict Shortcut :=
  [("pair",
    {| sc_modules := "ble_scan|ble_connect"; sc_description := "pair";
       sc_mapping := [("TARGET", parse_mapping targets)] |})].

(** The two members [load] builds for it. *)
Definition pair_members : list ModuleEntry :=
  [sample_entry "ble_scan1" (sample_unit "ble_scan" [("TARGET", "")] true []);
   sample_entry "ble_connect2"
     (sample_unit "ble_connect" [("TARGET", "")] true [])].

(* ===================================================================== *)
(** * Properties *)
(* ===================================================================== *)

(** ** Strings *)

Lemma str_inj (n m : nat) : str n = str m -> n = m.
Proof.
  unfold str. intros H.
  apply (f_equal NilEmpty.uint_of_string) in H.
  rewrite !NilEmpty.usu in H. injection H as H.
  rewrite <- (Unsigned.of_to n), <- (Unsigned.of_to m). now rewrite H.
Qed.

Lemma append_inj_l (p a b : string) : p ++ a = p ++ b -> a = b.
Proof. induction p as [|c p IH]; simpl; intros H; [assumption|]. injection H as H. auto. Qed.

Lemma append_length (a b : string) :
  String.length (a ++ b) = String.length a + String.length b.
Proof. induction a as [|c a IH]; simpl; [reflexivity|]. now rewrite IH. Qed.

Lemma has_char_append (c : ascii) (a b : string) :
  has_char c (a ++ b) = has_char c a || has_char c b.
Proof.
  induction a as [|x a IH]; simpl; [reflexivity|].
  rewrite IH. now rewrite orb_assoc.
Qed.

(** A string without the separator is returned whole. *)
Lemma split_no_sep (c : ascii) (s : string) :
  has_char c s = false -> split c s = [s].
Proof.
  induction s as [|a s IH]; simpl; [reflexivity|].
  intros H. apply orb_false_iff in H as [Ha Hs].
  rewrite Ha, (IH Hs). reflexivity.
Qed.

(** Splitting [a ++ c ++ b] when [a] holds no separator. *)
Lemma split_append (c : ascii) (a b : string) :
  has_char c a = false ->
  split c (a ++ String c b) = a :: split c b.
Proof.
  induction a as [|x a IH]; simpl.
  - intros _. now rewrite Ascii.eqb_refl.
  - intros H. apply orb_false_iff in H as [Hx Ha].
    rewrite Hx, (IH Ha). reflexivity.
Qed.

Lemma split_not_nil (c : ascii) (s : string) : split c s <> [].
Proof.
  destruct s as [|a s]; simpl; [discriminate|].
  destruct (Ascii.eqb a c); [discriminate|].
  destruct (split c s); discriminate.
Qed.

(** ** Dictionaries *)

Section DictFacts.
Context {V : Type}.
Implicit Types (d : dict V) (k : string) (v : V).

Lemma get_setitem_eq d k v : get (setitem d k v) k = Some v.
Proof.
  induction d as [|[k' v'] d IH]; simpl.
  - now rewrite String.eqb_refl.
  - destruct (String.eqb k' k) eqn:E; simpl; rewrite E; auto.
Qed.

Lemma get_setitem_neq d k k' v :
  k <> k' -> get (setitem d k v) k' = get d k'.
Proof.
  intros N. induction d as [|[k0 v0] d IH]; simpl.
  - apply String.eqb_neq in N. now rewrite N.
  - destruct (String.eqb k0 k) eqn:E; simpl.
    + apply String.eqb_eq in E. subst k0.
      apply String.eqb_neq in N. now rewrite N.
    + now rewrite IH.
Qed.

Lemma get_delitem_eq d k : get (delitem d k) k = None.
Proof.
  induction d as [|[k' v'] d IH]; simpl; [reflexivity|].
  destruct (String.eqb k' k) eqn:E; simpl; [assumption|]. now rewrite E.
Qed.

Lemma get_delitem_neq d k k' : k <> k' -> get (delitem d k) k' = get d k'.
Proof.
  intros N. induction d as [|[k0 v0] d IH]; simpl; [reflexivity|].
  destruct (String.eqb k0 k) eqn:E; simpl.
  - apply String.eqb_eq in E. subst k0.
    apply String.eqb_neq in N. now rewrite N.
  - now rewrite IH.
Qed.

Lemma get_In_keys d k : get d k <> None <-> In k (keys d).
Proof.
  induction d as [|[k' v'] d IH]; simpl.
  - split; [congruence | tauto].
  - destruct (String.eqb_spec k' k) as [->|N].
    + split; [auto | discriminate].
    + rewrite IH. split; [auto | intros [E|I]; [contradiction | assumption]].
Qed.

Lemma contains_In_keys d k : contains k d = true <-> In k (keys d).
Proof.
  rewrite <- get_In_keys. unfold contains.
  destruct (get d k); split; congruence.
Qed.

Lemma contains_false_get d k : contains k d = false <-> get d k = None.
Proof. unfold contains. destruct (get d k); split; congruence. Qed.

Lemma contains_setitem d k k' v :
  contains k' (setitem d k v) = String.eqb k k' || contains k' d.
Proof.
  unfold contains. destruct (String.eqb_spec k k') as [->|N].
  - now rewrite get_setitem_eq.
  - now rewrite get_setitem_neq.
Qed.

Lemma keys_delitem d k k' :
  In k' (keys (delitem d k)) <-> In k' (keys d) /\ k <> k'.
Proof.
  rewrite <- !get_In_keys. destruct (String.eqb_spec k k') as [->|N].
  - rewrite get_delitem_eq. split; [congruence | tauto].
  - rewrite get_delitem_neq by assumption. tauto.
Qed.

(** Deleting a key does not touch the entries of the other keys. *)
Lemma In_delitem d k k' v :
  In (k', v) (delitem d k) <-> In (k', v) d /\ k <> k'.
Proof.
  induction d as [|[k0 v0] d IH]; simpl; [tauto|].
  destruct (String.eqb_spec k0 k) as [->|N].
  - rewrite IH. split.
    + tauto.
    + intros [[E|I] N]; [injection E as -> _; contradiction | tauto].
  - simpl. rewrite IH. split.
    + intros [E|[I N']]; [injection E as <- <-; split; auto | tauto].
    + tauto.
Qed.

Lemma delitem_length d k : length (delitem d k) <= length d.
Proof.
  induction d as [|[k0 v0] d IH]; simpl; [lia|].
  destruct (String.eqb k0 k); simpl; lia.
Qed.

Lemma setitem_length d k v :
  length (setitem d k v) = if contains k d then length d else S (length d).
Proof.
  unfold contains. induction d as [|[k0 v0] d IH]; simpl; [reflexivity|].
  destruct (String.eqb k0 k); simpl; [reflexivity|].
  rewrite IH. destruct (get d k); reflexivity.
Qed.

Lemma In_setitem d k v k' v' :
  In (k', v') (setitem d k v) -> (k' = k /\ v' = v) \/ In (k', v') d.
Proof.
  induction d as [|[k0 v0] d IH]; simpl.
  - intros [E|[]]. injection E as <- <-. auto.
  - destruct (String.eqb_spec k0 k) as [->|N]; simpl.
    + intros [E|I]; [injection E as <- <-; auto | auto].
    + intros [E|I]; [auto | destruct (IH I); auto].
Qed.

Lemma delitem_notin d k : ~ In k (keys d) -> delitem d k = d.
Proof.
  induction d as [|[k0 v0] d IH]; simpl; [reflexivity|].
  intros N. destruct (String.eqb_spec k0 k) as [->|_].
  - exfalso. auto.
  - f_equal. apply IH. auto.
Qed.

Lemma keys_setitem d k v :
  keys (setitem d k v) = if contains k d then keys d else (keys d ++ [k])%list.
Proof.
  unfold contains. induction d as [|[k0 v0] d IH]; simpl; [reflexivity|].
  destruct (String.eqb k0 k); simpl; [reflexivity|].
  rewrite IH. destruct (get d k); reflexivity.
Qed.

Lemma wf_setitem d k v : wf d -> wf (setitem d k v).
Proof.
  unfold wf. intros H. rewrite keys_setitem.
  destruct (contains k d) eqn:E; [assumption|].
  apply NoDup_app; [assumption | repeat constructor; simpl; tauto |].
  intros x Hx [<-|[]]. apply contains_In_keys in Hx. congruence.
Qed.

Lemma wf_delitem d k : wf d -> wf (delitem d k).
Proof.
  unfold wf. induction d as [|[k0 v0] d IH]; simpl; [auto|].
  intros H. inversion H as [|? ? Hn Hd]; subst.
  destruct (String.eqb k0 k); [auto|]. simpl. constructor; [|auto].
  intros I. apply keys_delitem in I. tauto.
Qed.

End DictFacts.

(** ** The task manager *)

Section TaskFacts.
Import Tasks.

Lemma candidate_inj (b : string) (i j : nat) :
  candidate b i = candidate b j -> i = j.
Proof.
  destruct i as [|i], j as [|j]; simpl; intros H.
  - reflexivity.
  - apply (f_equal String.length) in H. rewrite append_length in H.
    simpl in H. lia.
  - apply (f_equal String.length) in H. rewrite append_length in H.
    simpl in H. lia.
  - apply append_inj_l in H. injection H as H. now apply str_inj.
Qed.

Lemma addTask_loop_0 (tasks : TaskManager) (b t : string) (c : nat) :
  addTask_loop 0 tasks b t c
  = if contains t tasks then None else Some t.
Proof. reflexivity. Qed.

Lemma addTask_loop_S (fuel : nat) (tasks : TaskManager) (b t : string)
    (c : nat) :
  addTask_loop (S fuel) tasks b t (S c)
  = if contains t tasks
    then addTask_loop fuel tasks b (candidate b (S c)) (S (S c))
    else Some t.
Proof. reflexivity. Qed.

(** The candidates that are taken are distinct keys of the registry. *)
Lemma present_le_length (tasks : TaskManager) (b : string) (n : nat) :
  (forall j, j < n -> contains (candidate b j) tasks = true) ->
  n <= length tasks.
Proof.
  intros H.
  assert (L : length (map (candidate b) (seq 0 n)) <= length (keys tasks)).
  { apply NoDup_incl_length.
    - apply Injective_map_NoDup; [|apply seq_NoDup].
      intros i j. apply candidate_inj.
    - intros k Hk. apply in_map_iff in Hk as (j & <- & Hj).
      apply in_seq in Hj. apply contains_In_keys. apply H. lia. }
  rewrite length_map, length_seq in L. unfold keys in L.
  now rewrite length_map in L.
Qed.

(** The loop of [addTask] ends: one iteration per registered task is
    enough. *)
Lemma addTask_loop_total (fuel : nat) :
  forall (tasks : TaskManager) (b : string) (c : nat),
    (forall j, j < c -> contains (candidate b j) tasks = true) ->
    length tasks <= c + fuel ->
    exists n, addTask_loop fuel tasks b (candidate b c) (S c) = Some n.
Proof.
  induction fuel as [|fuel IH]; intros tasks b c Hp Hl;
    [rewrite addTask_loop_0 | rewrite addTask_loop_S];
    destruct (contains (candidate b c) tasks) eqn:E; eauto.
  - exfalso.
    assert (S c <= length tasks); [|lia].
    apply (present_le_length tasks b). intros j Hj.
    destruct (Nat.eq_dec j c) as [->|]; [assumption | apply Hp; lia].
  - apply IH; [|lia].
    intros j Hj.
    destruct (Nat.eq_dec j c) as [->|]; [assumption | apply Hp; lia].
Qed.

(** What the loop returns: the first candidate, from the current one on,
    that is not taken. *)
Lemma addTask_loop_first_free (fuel : nat) :
  forall (tasks : TaskManager) (b : string) (c : nat) (n : string),
    addTask_loop fuel tasks b (candidate b c) (S c) = Some n ->
    exists k, c <= k /\ n = candidate b k /\
              contains n tasks = false /\
              forall j, c <= j < k -> contains (candidate b j) tasks = true.
Proof.
  induction fuel as [|fuel IH]; intros tasks b c n;
    [rewrite addTask_loop_0 | rewrite addTask_loop_S];
    destruct (contains (candidate b c) tasks) eqn:E; intros H;
    try discriminate.
  - injection H as <-. exists c. repeat split; auto. intros j Hj. lia.
  - apply IH in H as (k & Hk & -> & Hf & Hp).
    exists k. repeat split; auto; [lia|].
    intros j Hj. destruct (Nat.eq_dec j c) as [->|]; [assumption|].
    apply Hp. lia.
  - injection H as <-. exists c. repeat split; auto. intros j Hj. lia.
Qed.

(** [addTask] always returns. *)
Lemma addTask_total (ident : nat) (f : Function) (nm : string)
    (a : list value) (kw : dict value) (tasks : TaskManager) :
  exists n, addTask ident f nm a kw tasks
            = Some (n, setitem tasks n (Task_init ident f n a kw)).
Proof.
  unfold addTask.
  set (b := if String.eqb nm "" then fn_name f else nm).
  destruct (addTask_loop_total (length tasks) tasks b 0) as [n Hn].
  - intros j Hj. lia.
  - lia.
  - simpl in Hn. rewrite Hn. eauto.
Qed.

(** With the first [i] candidates taken and the others free, a call with
    a named task returns candidate [i]. *)
Lemma addTask_next (ident : nat) (f : Function) (nm : string)
    (a : list value) (kw : dict value) (tasks : TaskManager) (i : nat) :
  nm <> "" ->
  (forall k, k < i -> contains (candidate nm k) tasks = true) ->
  (forall k, i <= k -> contains (candidate nm k) tasks = false) ->
  addTask ident f nm a kw tasks
  = Some (candidate nm i,
          setitem tasks (candidate nm i)
            (Task_init ident f (candidate nm i) a kw)).
Proof.
  intros Hnm Hp Hf. unfold addTask.
  apply String.eqb_neq in Hnm. rewrite Hnm.
  destruct (addTask_loop_total (length tasks) tasks nm 0) as [n Hn];
    [intros j Hj; lia | lia |].
  simpl in Hn. rewrite Hn.
  apply (addTask_loop_first_free _ tasks nm 0) in Hn
    as (k & _ & -> & Hfree & Hpres).
  assert (k = i) as ->; [|reflexivity].
  destruct (Nat.lt_trichotomy k i) as [L|[E|G]]; [|assumption|].
  - rewrite Hp in Hfree by assumption. discriminate.
  - assert (Hi : contains (candidate nm i) tasks = true)
      by (apply Hpres; lia).
    rewrite Hf in Hi by lia. discriminate.
Qed.

(** Calls with one name, started where the first [i] candidates are taken
    and the others free, return the candidates from [i] on; they keep the
    tasks that were there and store each new one, stopped, under the name
    returned. *)
Lemma addTasks_from (nm : string) :
  nm <> "" ->
  forall (calls : list (nat * Function * list value * dict value))
         (i : nat) (tasks : TaskManager),
    (forall k, k < i -> contains (candidate nm k) tasks = true) ->
    (forall k, i <= k -> contains (candidate nm k) tasks = false) ->
    exists tasks',
      addTasks calls nm tasks
      = Some (map (candidate nm) (seq i (length calls)), tasks') /\
      (forall key t, get tasks key = Some t -> get tasks' key = Some t) /\
      (forall k, i <= k < i + length calls ->
         exists t, get tasks' (candidate nm k) = Some t /\
                   state t = stopped /\ taskName t = candidate nm k).
Proof.
  intros Hnm. induction calls as [|[[[ident f] a] kw] calls IH];
    intros i tasks Hp Hf; simpl.
  - exists tasks. repeat split; auto. intros k Hk. lia.
  - rewrite (addTask_next ident f nm a kw tasks i Hnm Hp Hf).
    set (T := Task_init ident f (candidate nm i) a kw).
    destruct (IH (S i) (setitem tasks (candidate nm i) T))
      as (tasks' & Hrun & Hkeep & Hnew).
    + intros k Hk. rewrite contains_setitem.
      destruct (Nat.eq_dec k i) as [->|N].
      * now rewrite String.eqb_refl.
      * rewrite Hp by lia. apply orb_true_r.
    + intros k Hk. rewrite contains_setitem, Hf by lia.
      rewrite orb_false_r. apply String.eqb_neq.
      intros E. apply candidate_inj in E. lia.
    + rewrite Hrun. exists tasks'. split; [reflexivity|]. split.
      * intros key t Hget. apply Hkeep.
        rewrite get_setitem_neq; [assumption|].
        intros <-. specialize (Hf i (le_n i)).
        apply contains_false_get in Hf. congruence.
      * intros k Hk. destruct (Nat.eq_dec k i) as [->|N].
        -- exists T. split; [|split; reflexivity].
           apply Hkeep. apply get_setitem_eq.
        -- apply Hnew. lia.
Qed.

(** C7. Calls of [addTask] with one requested name, on a registry where
    that name and its suffixed forms are free: the first call returns the
    bare name, the call after [k] others returns the name suffixed with
    [.k], and every returned name is stored with a task in state
    [stopped]. *)
Theorem addTask_collision_suffixes (nm : string)
    (calls : list (nat * Function * list value * dict value))
    (tasks : TaskManager) :
  nm <> "" ->
  (forall k, contains (candidate nm k) tasks = false) ->
  exists tasks',
    addTasks calls nm tasks
    = Some (map (candidate nm) (seq 0 (length calls)), tasks') /\
    forall k, k < length calls ->
      exists t, get tasks' (candidate nm k) = Some t /\
                state t = stopped /\ taskName t = candidate nm k.
Proof.
  intros Hnm Hfree.
  destruct (addTasks_from nm Hnm calls 0 tasks) as (tasks' & Hrun & _ & Hnew).
  - intros k Hk. lia.
  - intros k _. apply Hfree.
  - exists tasks'. split; [assumption|].
    intros k Hk. apply Hnew. lia.
Qed.

(** Three calls [addTask(f, name="probe")] on an empty registry return
    ["probe"], ["probe.1"], ["probe.2"]. *)
Lemma addTask_collision_suffixes_probe :
  let f := {| fn_name := "sniff" |} in
  exists tasks',
    addTasks [(1, f, [], []); (2, f, [], []); (3, f, [], [])] "probe" []
    = Some (["probe"; "probe.1"; "probe.2"], tasks') /\
    forall k, k < 3 ->
      exists t, get tasks' (candidate "probe" k) = Some t /\
                state t = stopped /\ taskName t = candidate "probe" k.
Proof.
  intros f.
  apply (addTask_collision_suffixes "probe"
           [(1, f, [], []); (2, f, [], []); (3, f, [], [])] []).
  - discriminate.
  - intros k. reflexivity.
Defined.

(** The registry invariant holds initially and every operation keeps it. *)
Lemma registry_ok_nil : registry_ok [].
Proof. split; constructor. Qed.

Lemma registry_ok_setitem (tasks : TaskManager) (k : string) (t : Task) :
  taskName t = k -> registry_ok tasks -> registry_ok (setitem tasks k t).
Proof.
  intros Hk [Hw Hn]. split; [now apply wf_setitem|].
  apply Forall_forall. intros [k' t'] I. simpl.
  apply In_setitem in I as [[-> ->]|I]; [assumption|].
  rewrite Forall_forall in Hn. apply (Hn _ I).
Qed.

Lemma registry_ok_delitem (tasks : TaskManager) (k : string) :
  registry_ok tasks -> registry_ok (delitem tasks k).
Proof.
  intros [Hw Hn]. split; [now apply wf_delitem|].
  apply Forall_forall. intros [k' t'] I. simpl.
  apply In_delitem in I as [I _].
  rewrite Forall_forall in Hn. apply (Hn _ I).
Qed.

Lemma registry_ok_get (tasks : TaskManager) (k : string) (t : Task) :
  registry_ok tasks -> get tasks k = Some t -> taskName t = k.
Proof.
  intros [_ Hn]. induction tasks as [|[k0 t0] tasks IH]; simpl; [discriminate|].
  inversion Hn as [|? ? H0 Hn']; subst. simpl in H0.
  destruct (String.eqb_spec k0 k) as [->|N]; [|auto].
  intros E. injection E as <-. assumption.
Qed.

Lemma registry_ok_addTask (ident : nat) (f : Function) (nm : string)
    (a : list value) (kw : dict value) (tasks tasks' : TaskManager)
    (n : string) :
  registry_ok tasks ->
  addTask ident f nm a kw tasks = Some (n, tasks') -> registry_ok tasks'.
Proof.
  intros Hok H. destruct (addTask_total ident f nm a kw tasks) as [n' E].
  rewrite E in H. injection H as <- <-.
  now apply registry_ok_setitem.
Qed.

Lemma registry_ok_startTask (tempDir : string) (p : nat) (nm : string)
    (tasks : TaskManager) :
  registry_ok tasks -> registry_ok (snd (startTask tempDir p nm tasks)).
Proof.
  intros Hok. unfold startTask. destruct (get tasks nm) as [t|] eqn:E; [|assumption].
  destruct (state t); simpl; try assumption.
  apply registry_ok_setitem; [|assumption].
  simpl. now apply (registry_ok_get tasks).
Qed.

Lemma registry_ok_stopTask (nm : string) (tasks : TaskManager) :
  registry_ok tasks -> registry_ok (snd (stopTask nm tasks)).
Proof.
  intros Hok. unfold stopTask. destruct (get tasks nm) as [t|] eqn:E; [|assumption].
  destruct (state t); simpl; try assumption.
  apply registry_ok_delitem, registry_ok_setitem; [|assumption].
  simpl. now apply (registry_ok_get tasks).
Qed.

(** A name that is not registered stays unregistered when tasks are
    started or stopped: only [addTask] and [restartTask] register names. *)
Lemma absent_after_startTask (tempDir : string) (p : nat) (nm nm' : string)
    (tasks : TaskManager) :
  get tasks nm = None -> get (snd (startTask tempDir p nm' tasks)) nm = None.
Proof.
  intros H. unfold startTask. destruct (get tasks nm') as [t|] eqn:E; [|assumption].
  destruct (state t); simpl; try assumption.
  rewrite get_setitem_neq; [assumption|]. intros ->. congruence.
Qed.

Lemma absent_after_stopTask (nm nm' : string) (tasks : TaskManager) :
  get tasks nm = None -> get (snd (stopTask nm' tasks)) nm = None.
Proof.
  intros H. unfold stopTask. destruct (get tasks nm') as [t|] eqn:E; [|assumption].
  destruct (state t); simpl; try assumption.
  destruct (String.eqb_spec nm' nm) as [->|N]; [apply get_delitem_eq|].
  rewrite get_delitem_neq, get_setitem_neq; assumption.
Qed.

(** The rows of a listing are the rows of tasks of the registry. *)
Lemma getTasksList_row (pattern : string) (tasks : TaskManager)
    (row : list string) :
  In row (getTasksList pattern tasks) ->
  exists k t, In (k, t) tasks /\ row = toList t.
Proof.
  unfold getTasksList, values. intros I.
  apply in_map_iff in I as (t & <- & I).
  apply filter_In in I as [I _].
  apply in_map_iff in I as ([k t'] & E & I). simpl in E. subst t'.
  eauto.
Qed.

(** C8. [stopTask] succeeds exactly when the name is registered with a
    running task; when it fails the registry is unchanged; when it
    succeeds the name is no longer registered and no row of any listing of
    the new registry carries it. *)
Theorem stopTask_only_running_and_removes (nm : string)
    (tasks : TaskManager) :
  registry_ok tasks ->
  (fst (stopTask nm tasks) = true <->
     exists t, get tasks nm = Some t /\ state t = running) /\
  (fst (stopTask nm tasks) = false -> snd (stopTask nm tasks) = tasks) /\
  (fst (stopTask nm tasks) = true ->
     get (snd (stopTask nm tasks)) nm = None /\
     forall pattern row,
       In row (getTasksList pattern (snd (stopTask nm tasks))) ->
       row_name row <> nm).
Proof.
  intros Hok. unfold stopTask.
  destruct (get tasks nm) as [t|] eqn:E.
  - destruct (state t) eqn:St; simpl.
    + split; [|split]; try (intros; discriminate); auto.
      split; [discriminate|]. intros (t' & Ht & Hr). congruence.
    + split; [|split].
      * split; eauto.
      * discriminate.
      * intros _. split; [apply get_delitem_eq|].
        intros pattern row I.
        apply getTasksList_row in I as (k & t' & I & ->).
        apply In_delitem in I as [I N].
        apply In_setitem in I as [[-> _]|I]; [congruence|].
        unfold row_name, toList. simpl.
        destruct Hok as [_ Hn]. rewrite Forall_forall in Hn.
        specialize (Hn _ I). simpl in Hn. congruence.
    + split; [|split]; try (intros; discriminate); auto.
      split; [discriminate|]. intros (t' & Ht & Hr). congruence.
  - simpl. split; [|split]; try (intros; discriminate); auto.
    split; [discriminate|]. intros (t' & Ht & _). discriminate.
Qed.

Lemma sample_tasks_ok : registry_ok sample_tasks.
Proof.
  split.
  - unfold wf. simpl. repeat constructor; simpl; intuition discriminate.
  - repeat constructor.
Qed.

Lemma stopTask_only_running_and_removes_sample :
  fst (stopTask "sniff" sample_tasks) = true /\
  fst (stopTask "scan" sample_tasks) = false /\
  forall pattern row,
    In row (getTasksList pattern (snd (stopTask "sniff" sample_tasks))) ->
    row_name row <> "sniff".
Proof.
  split; [reflexivity|]. split; [reflexivity|].
  apply (stopTask_only_running_and_removes "sniff" sample_tasks
           sample_tasks_ok).
  reflexivity.
Defined.

(** *** Tasks that finish on their own *)


Lemma keys_finish_tasks (finishes : string -> bool) (tasks : TaskManager) :
  keys (finish_tasks finishes tasks) = keys tasks.
Proof.
  unfold keys, finish_tasks. rewrite map_map. reflexivity.
Qed.

Lemma registry_ok_finish_tasks (finishes : string -> bool)
    (tasks : TaskManager) :
  registry_ok tasks -> registry_ok (finish_tasks finishes tasks).
Proof.
  intros [Hw Hn]. split.
  - unfold wf. now rewrite keys_finish_tasks.
  - unfold finish_tasks. apply Forall_forall. intros [k t] I.
    apply in_map_iff in I as ([k0 t0] & E & I). simpl in E.
    injection E as <- <-. rewrite Forall_forall in Hn.
    specialize (Hn _ I). simpl in *.
    destruct (state t0); try assumption.
    destruct (finishes k0); assumption.
Qed.











Lemma registry_ok_stopAllTasks_loop (sched : Schedule) (todo : list string) :
  forall cur : TaskManager,
    registry_ok cur -> registry_ok (snd (stopAllTasks_loop sched todo cur)).
Proof.
  induction todo as [|k todo IH]; intros cur Hok; [assumption|].
  cbn [stopAllTasks_loop]. unfold bind.
  assert (Hstep : registry_ok (snd (stopAllTasks_step sched k cur))).
  { unfold stopAllTasks_step.
    pose proof (registry_ok_finish_tasks (before_check sched k) cur Hok) as H1.
    destruct (get (finish_tasks (before_check sched k) cur) k) as [t|];
      [|assumption].
    destruct (state t); simpl.
    - now apply registry_ok_delitem.
    - now apply registry_ok_stopTask, registry_ok_finish_tasks.
    - now apply registry_ok_delitem. }
  destruct (stopAllTasks_step sched k cur) as [[[]|x] mid]; simpl in *.
  - now apply IH.
  - assumption.
Qed.




End TaskFacts.

(** ** The pipeline *)

Section PipelineFacts.

Variable sdr : list string.

Lemma with_pipeline_same (app : App) :
  with_pipeline app (modules app) (loaded_shortcuts app) (log app) = app.
Proof. destruct app; reflexivity. Qed.

(** [_set] on a list that holds one [{"name", "module"}] dictionary is
    [set_entry]; this is the call [load] makes for a shortcut's defaults. *)
Lemma _set_module_singleton (nm : string) (v : value) (e : ModuleEntry)
    (store : dict Shortcut) :
  _set sdr nm v [ModuleSlot e] store
  = (fst (set_entry sdr nm v e),
     ([ModuleSlot (snd (set_entry sdr nm v e))], store)).
Proof. unfold _set. now destruct (set_entry sdr nm v e). Qed.

(** A dotted name [P.N] with one dot. *)
Lemma has_char_dotted (P N : string) : has_char dot (P ++ "." ++ N) = true.
Proof.
  rewrite has_char_append. simpl. apply orb_true_r.
Qed.

Lemma split_dotted (P N : string) :
  has_char dot P = false -> has_char dot N = false ->
  split dot (P ++ "." ++ N) = [P; N].
Proof.
  intros HP HN. change ("." ++ N) with (String dot N).
  rewrite (split_append dot P N HP), (split_no_sep dot N HN). reflexivity.
Qed.

(** [_set] on at least two slots, with a dotted name, is the routing
    loop. *)
Lemma _set_dotted (P N : string) (v : value) (s1 s2 : Slot)
    (rest : list Slot) (store : dict Shortcut) :
  has_char dot P = false -> has_char dot N = false ->
  _set sdr (P ++ "." ++ N) v (s1 :: s2 :: rest) store
  = route sdr P N v (s1 :: s2 :: rest) store.
Proof.
  intros HP HN. unfold _set.
  rewrite has_char_dotted, (split_dotted P N HP HN).
  destruct s1; reflexivity.
Qed.

(** The routing loop falls through when no slot has the display name. *)
Lemma route_no_match (P N : string) (v : value) (l : list Slot)
    (store : dict Shortcut) :
  (forall s, In s l -> slot_name s <> P) ->
  route sdr P N v l store = (Return PyNone, (l, store)).
Proof.
  induction l as [|s l IH]; intros H; simpl; [reflexivity|].
  rewrite IH by (intros s' I; apply H; now right).
  assert (Hs : slot_name s <> P) by (apply H; now left).
  destruct s as [e|snm shortcut mapping]; simpl in Hs.
  - destruct (entry_module e); [|reflexivity].
    destruct (String.eqb_spec P (entry_name e)) as [E|_]; [|reflexivity].
    congruence.
  - destruct (String.eqb_spec P snm) as [E|_]; [|reflexivity]. congruence.
Qed.

(** C10. With two or more slots loaded, [set] with a dotted name whose
    prefix is the display name of no slot changes nothing and prints
    nothing: [_set] returns [None] and raises no exception. *)
Theorem set_unknown_slot_prefix_is_silent (P N : string) (v : value)
    (app : App) :
  2 <= length (modules app) ->
  has_char dot P = false -> has_char dot N = false ->
  (forall s, In s (modules app) -> slot_name s <> P) ->
  _set sdr (P ++ "." ++ N) v (modules app) (loaded_shortcuts app)
  = (Return PyNone, (modules app, loaded_shortcuts app)) /\
  set sdr (P ++ "." ++ N) v app = app.
Proof.
  intros Hlen HP HN Hno.
  assert (E : _set sdr (P ++ "." ++ N) v (modules app) (loaded_shortcuts app)
              = (Return PyNone, (modules app, loaded_shortcuts app))).
  { destruct (modules app) as [|s1 [|s2 rest]] eqn:Em; simpl in Hlen; try lia.
    rewrite (_set_dotted P N v s1 s2 rest _ HP HN).
    now apply route_no_match. }
  split; [assumption|].
  unfold set. rewrite E. apply with_pipeline_same.
Qed.

(** *** Loading *)

Lemma components_single (x : string) :
  has_char pipe x = false -> components x = [x].
Proof. intros H. unfold components. now rewrite H. Qed.

Lemma components_twice (x : string) :
  has_char pipe x = false -> components (x ++ "|" ++ x) = [x; x].
Proof.
  intros H. unfold components.
  rewrite has_char_append. change ("|" ++ x) with (String pipe x).
  simpl has_char. rewrite orb_true_r.
  rewrite (split_append pipe x x H), (split_no_sep pipe x H). reflexivity.
Qed.

(** The loop of [load] does not deliver a pipeline when one of the
    components is unresolvable. *)
Lemma load_loop_unresolvable (app : App) (m : string) (multi : bool)
    (ms : list string) :
  In m ms -> unresolvable app m ->
  forall counter lg tmp lg',
    load_loop sdr app multi ms counter lg <> (Return (Some tmp), lg').
Proof.
  intros Hin [Hload Hshort].
  induction ms as [|m0 ms IH]; [destruct Hin|].
  intros counter lg tmp lg'. simpl.
  destruct (Loader_load (modulesList app) m0) as [out msgs] eqn:El.
  assert (Hrest : In m ms ->
            forall s lg1,
              match load_loop sdr app multi ms (S counter) lg1 with
              | (Return (Some tmp0), lg0) => (Return (Some (s :: tmp0)), lg0)
              | r => r
              end <> (Return (Some tmp), lg')).
  { intros I s lg1.
    destruct (load_loop sdr app multi ms (S counter) lg1) as [[[t|]|x] lg0] eqn:E;
      try discriminate.
    exfalso. exact (IH I _ _ _ _ E). }
  destruct Hin as [->|Hin].
  - rewrite El in Hload. simpl in Hload. subst out.
    rewrite Hshort. discriminate.
  - destruct out as [o|].
    + apply Hrest, Hin.
    + destruct (get (loaded_shortcuts app) m0) as [sc|]; [|discriminate].
      destruct (load_chain _ _ _ _ _ _ _) as [[sm|x] lg1]; [|discriminate].
      apply Hrest, Hin.
Qed.

(** C2. A load with a component that is neither a unit nor a shortcut is
    rejected: whatever the other components are, the application comes
    back with the pipeline, the shortcut store and the prompt it had, only
    the log has grown. *)
Theorem load_unresolvable_keeps_pipeline (module_name m : string)
    (app : App) :
  In m (components module_name) -> unresolvable app m ->
  (exists lg,
     snd (load sdr module_name app)
     = with_pipeline app (modules app) (loaded_shortcuts app) lg) /\
  modules (snd (load sdr module_name app)) = modules app /\
  loaded_shortcuts (snd (load sdr module_name app)) = loaded_shortcuts app.
Proof.
  intros Hin Hun. unfold load.
  pose proof (load_loop_unresolvable app m
                (Nat.ltb 1 (length (components module_name)))
                (components module_name) Hin Hun 1 (log app)) as H.
  destruct (load_loop sdr app _ (components module_name) 1 (log app))
    as [[[tmp|]|x] lg] eqn:E.
  - exfalso. exact (H tmp lg eq_refl).
  - simpl. repeat split; eauto.
  - simpl. repeat split; eauto.
Qed.

(** The display names the loop gives, component by component. *)
Lemma load_loop_names (app : App) (multi : bool) (ms : list string) :
  forall counter lg tmp lg',
    load_loop sdr app multi ms counter lg = (Return (Some tmp), lg') ->
    map slot_name tmp
    = map (fun im => display_name multi (snd im) (fst im))
        (combine (seq counter (length ms)) ms).
Proof.
  induction ms as [|m0 ms IH]; intros counter lg tmp lg'; simpl.
  - intros H. injection H as <- _. reflexivity.
  - destruct (Loader_load (modulesList app) m0) as [out msgs].
    assert (Hrest : forall s lg1,
              slot_name s = display_name multi m0 counter ->
              match load_loop sdr app multi ms (S counter) lg1 with
              | (Return (Some tmp0), lg0) => (Return (Some (s :: tmp0)), lg0)
              | r => r
              end = (Return (Some tmp), lg') ->
              map slot_name tmp
              = display_name multi m0 counter
                :: map (fun im => display_name multi (snd im) (fst im))
                     (combine (seq (S counter) (length ms)) ms)).
    { intros s lg1 Hs.
      destruct (load_loop sdr app multi ms (S counter) lg1)
        as [[[t|]|x] lg0] eqn:E; try discriminate.
      intros H. injection H as <- _. simpl.
      now rewrite Hs, (IH _ _ _ _ E). }
    destruct out as [o|].
    + apply Hrest. reflexivity.
    + destruct (get (loaded_shortcuts app) m0) as [sc|]; [|discriminate].
      destruct (load_chain _ _ _ _ _ _ _) as [[sm|x] lg1]; [|discriminate].
      apply Hrest. reflexivity.
Qed.

Lemma map_snd_combine_seq (ms : list string) (c : nat) :
  map (fun im : nat * string => snd im) (combine (seq c (length ms)) ms) = ms.
Proof.
  revert c. induction ms as [|m ms IH]; intros c; simpl; [reflexivity|].
  now rewrite IH.
Qed.

(** C6. Where [x] names a unit: loading [x|x] yields the slots [x1] and
    [x2], loading [x] yields the slot [x]; and whenever a load installs a
    pipeline, its display names carry the 1-based position exactly when
    there is more than one component. *)
Theorem load_display_names (app : App) (x : string) (u : MirageModule)
    (msgs : list event) :
  has_char pipe x = false ->
  Loader_load (modulesList app) x = (Some u, msgs) ->
  map slot_name (modules (snd (load sdr (x ++ "|" ++ x) app)))
  = [x ++ "1"; x ++ "2"] /\
  map slot_name (modules (snd (load sdr x app))) = [x] /\
  forall module_name tmp lg,
    load_loop sdr app (Nat.ltb 1 (length (components module_name)))
      (components module_name) 1 (log app) = (Return (Some tmp), lg) ->
    modules (snd (load sdr module_name app)) = tmp /\
    map slot_name tmp = suffixed_names (components module_name).
Proof.
  intros Hx Hl. split; [|split].
  - unfold load. rewrite (components_twice x Hx). simpl. rewrite !Hl.
    reflexivity.
  - unfold load. rewrite (components_single x Hx). simpl. rewrite !Hl.
    reflexivity.
  - intros module_name tmp lg H. split.
    + unfold load. now rewrite H.
    + rewrite (load_loop_names _ _ _ _ _ _ _ H). unfold suffixed_names.
      destruct (Nat.ltb 1 (length (components module_name))).
      * reflexivity.
      * apply map_snd_combine_seq.
Qed.

(** *** Setting a parameter of a shortcut *)

Lemma set_entry_name (nm : string) (v : value) (e : ModuleEntry) :
  entry_name (snd (set_entry sdr nm v e)) = entry_name e.
Proof.
  unfold set_entry. destruct (entry_module e) as [m|]; [|reflexivity].
  destruct (dynamicArgs m || contains nm (args m)); [reflexivity|].
  destruct (existsb (String.eqb nm) sdr && wireless m); reflexivity.
Qed.

Lemma set_entry_module_none (nm : string) (v : value) (e : ModuleEntry) :
  entry_module (snd (set_entry sdr nm v e)) = None <-> entry_module e = None.
Proof.
  unfold set_entry. destruct (entry_module e) as [m|] eqn:E;
    [|simpl; now rewrite E].
  destruct (dynamicArgs m || contains nm (args m)); simpl;
    [split; discriminate|].
  destruct (existsb (String.eqb nm) sdr && wireless m); simpl;
    [split; discriminate | now rewrite E].
Qed.

(** A target that was set holds the value. *)
Lemma set_entry_holds (t : string) (v : value) (e e' : ModuleEntry) :
  set_entry sdr t v e = (Return PyTrue, e') -> read_entry sdr t e' = Some v.
Proof.
  unfold set_entry, read_entry.
  destruct (entry_module e) as [m|]; [|discriminate].
  destruct (dynamicArgs m || contains t (args m)) eqn:Ea.
  - intros H. injection H as <-. simpl.
    rewrite contains_setitem, String.eqb_refl. simpl.
    rewrite orb_true_r. apply get_setitem_eq.
  - destruct (existsb (String.eqb t) sdr && wireless m) eqn:Es; [|discriminate].
    intros H. injection H as <-. simpl. rewrite Ea, Es.
    apply get_setitem_eq.
Qed.

(** Setting a target with the same value leaves every target that holds
    the value holding it. *)
Lemma set_entry_keeps (t t' : string) (v : value) (e : ModuleEntry) :
  read_entry sdr t e = Some v ->
  read_entry sdr t (snd (set_entry sdr t' v e)) = Some v.
Proof.
  unfold set_entry, read_entry.
  destruct (entry_module e) as [m|] eqn:Em; [|intros H; discriminate H].
  destruct (dynamicArgs m || contains t' (args m)) eqn:Ea'.
  - simpl. rewrite contains_setitem.
    destruct (String.eqb_spec t' t) as [->|N].
    + rewrite Ea'. simpl. rewrite orb_true_r.
      intros _. apply get_setitem_eq.
    + simpl. rewrite (get_setitem_neq _ _ _ _ N). auto.
  - destruct (existsb (String.eqb t') sdr && wireless m) eqn:Es'; simpl.
    + destruct (dynamicArgs m || contains t (args m)); [auto|].
      destruct (existsb (String.eqb t) sdr && wireless m); [|auto].
      destruct (String.eqb_spec t' t) as [->|N].
      * intros _. apply get_setitem_eq.
      * now rewrite (get_setitem_neq _ _ _ _ N).
    + now rewrite Em.
Qed.

Lemma route_entries_length (mn an : string) (v : value)
    (l : list ModuleEntry) :
  length (snd (route_entries sdr mn an v l)) = length l.
Proof.
  induction l as [|e l IH]; simpl; [reflexivity|].
  destruct (entry_module e).
  - destruct (String.eqb mn (entry_name e)).
    + destruct (set_entry sdr an v e). reflexivity.
    + destruct (route_entries sdr mn an v l). simpl in *. now rewrite IH.
  - destruct (route_entries sdr mn an v l). simpl in *. now rewrite IH.
Qed.

(** The routing loop sets the first member with the display name, and
    only that one. *)
Lemma route_entries_result (mn an : string) (v : value)
    (l : list ModuleEntry) :
  fst (route_entries sdr mn an v l)
  = match find_entry mn l with
    | Some e => fst (set_entry sdr an v e)
    | None => Return PyNone
    end.
Proof.
  induction l as [|e l IH]; simpl; [reflexivity|].
  destruct (entry_module e).
  - destruct (String.eqb mn (entry_name e)).
    + destruct (set_entry sdr an v e). reflexivity.
    + destruct (route_entries sdr mn an v l). exact IH.
  - destruct (route_entries sdr mn an v l). exact IH.
Qed.

Lemma route_entries_find (mn an mn' : string) (v : value)
    (l : list ModuleEntry) :
  find_entry mn' (snd (route_entries sdr mn an v l))
  = if String.eqb mn mn'
    then option_map (fun e => snd (set_entry sdr an v e)) (find_entry mn l)
    else find_entry mn' l.
Proof.
  induction l as [|e l IH].
  - simpl. now destruct (String.eqb mn mn').
  - cbn [route_entries find_entry].
    destruct (entry_module e) as [m|] eqn:Em.
    + destruct (String.eqb_spec mn (entry_name e)) as [Hn|Hn].
      * pose proof (set_entry_name an v e) as Hname.
        pose proof (set_entry_module_none an v e) as Hmod.
        destruct (set_entry sdr an v e) as [r e'] eqn:Es.
        cbn [snd fst option_map find_entry] in *.
        destruct (entry_module e') as [m'|] eqn:Em'.
        -- rewrite Hname.
           destruct (String.eqb_spec mn mn') as [<-|N].
           ++ apply String.eqb_eq in Hn. now rewrite Hn, Es.
           ++ destruct (String.eqb_spec mn' (entry_name e)) as [E|_];
                [congruence | reflexivity].
        -- exfalso. destruct Hmod as [Hmod _].
           specialize (Hmod eq_refl). congruence.
      * destruct (route_entries sdr mn an v l) as [r l'] eqn:Er.
        cbn [snd fst find_entry] in *. rewrite Em, IH.
        destruct (String.eqb_spec mn mn') as [<-|N].
        -- apply String.eqb_neq in Hn. now rewrite Hn.
        -- reflexivity.
    + destruct (route_entries sdr mn an v l) as [r l'] eqn:Er.
      cbn [snd fst find_entry] in *. rewrite Em, IH. reflexivity.
Qed.

Lemma _set_entries_length (nm : string) (v : value) (l : list ModuleEntry) :
  length (snd (_set_entries sdr nm v l)) = length l.
Proof.
  unfold _set_entries. destruct l as [|e1 [|e2 rest]]; [reflexivity| |].
  - destruct (set_entry sdr nm v e1). reflexivity.
  - destruct (has_char dot nm); [|reflexivity].
    destruct (split dot nm) as [|a [|b [|c r]]]; try reflexivity.
    apply route_entries_length.
Qed.

Lemma read_entries_multi (t : string) (l : list ModuleEntry) :
  2 <= length l -> read_entries sdr t l = read_dotted sdr t l.
Proof. destruct l as [|e1 [|e2 rest]]; simpl; intros H; try lia. reflexivity. Qed.

Lemma _set_entries_multi (t : string) (v : value) (l : list ModuleEntry) :
  2 <= length l ->
  _set_entries sdr t v l
  = if has_char dot t then
      match split dot t with
      | [module_name; arg_name] => route_entries sdr module_name arg_name v l
      | _ => (Raise ValueError, l)
      end
    else (Raise MultipleModulesLoaded, l).
Proof. destruct l as [|e1 [|e2 rest]]; simpl; intros H; try lia. reflexivity. Qed.

(** After a successful [_set] on the members, the target holds the
    value. *)
Lemma _set_entries_holds (t : string) (v : value) (l l' : list ModuleEntry) :
  _set_entries sdr t v l = (Return PyTrue, l') ->
  read_entries sdr t l' = Some v.
Proof.
  intros H.
  pose proof (_set_entries_length t v l) as Hlen. rewrite H in Hlen.
  simpl in Hlen.
  destruct l as [|e1 [|e2 rest]].
  - discriminate H.
  - simpl in H. destruct (set_entry sdr t v e1) as [r e'] eqn:Es.
    injection H as -> <-. simpl. now apply (set_entry_holds t v e1).
  - rewrite read_entries_multi by (rewrite Hlen; simpl; lia).
    rewrite _set_entries_multi in H by (simpl; lia).
    unfold read_dotted. destruct (has_char dot t); [|discriminate H].
    destruct (split dot t) as [|mn [|an [|c r]]]; try discriminate H.
    pose proof (route_entries_result mn an v (e1 :: e2 :: rest)) as Hr.
    pose proof (route_entries_find mn an mn v (e1 :: e2 :: rest)) as Hf.
    rewrite H in Hr, Hf. simpl fst in Hr. simpl snd in Hf.
    rewrite String.eqb_refl in Hf. rewrite Hf.
    destruct (find_entry mn (e1 :: e2 :: rest)) as [e|]; [|discriminate Hr].
    simpl. apply (set_entry_holds an v e).
    destruct (set_entry sdr an v e) as [r0 e0]. simpl in *. now subst r0.
Qed.

(** A later [_set] with the same value does not undo it. *)
Lemma _set_entries_keeps (t t' : string) (v : value) (l : list ModuleEntry) :
  read_entries sdr t l = Some v ->
  read_entries sdr t (snd (_set_entries sdr t' v l)) = Some v.
Proof.
  intros H.
  pose proof (_set_entries_length t' v l) as Hlen.
  destruct l as [|e1 [|e2 rest]].
  - discriminate H.
  - simpl in *. pose proof (set_entry_keeps t t' v e1 H) as K.
    destruct (set_entry sdr t' v e1) as [r e']. exact K.
  - rewrite read_entries_multi in * by (rewrite ?Hlen; simpl; lia).
    rewrite _set_entries_multi by (simpl; lia).
    destruct (has_char dot t'); [|exact H].
    destruct (split dot t') as [|mn' [|an' [|c r]]]; try exact H.
    unfold read_dotted in *. destruct (has_char dot t); [|discriminate H].
    destruct (split dot t) as [|mn [|an [|c r]]]; try discriminate H.
    rewrite route_entries_find.
    destruct (String.eqb_spec mn' mn) as [->|N]; [|exact H].
    destruct (find_entry mn (e1 :: e2 :: rest)) as [e|]; [|discriminate H].
    simpl. now apply set_entry_keeps.
Qed.

(** The fan-out stops calling [_set] once a call returned a false value. *)
Lemma fan_out_falsy (targets : list string) (v : value) (success : pyret)
    (l : list ModuleEntry) :
  truthy success = false ->
  fan_out sdr targets v success l = (Return success, l).
Proof.
  intros H. induction targets as [|t ts IH]; simpl; [reflexivity|].
  now rewrite H.
Qed.

Lemma fan_out_app (pre post : list string) (v : value) :
  forall (success : pyret) (l : list ModuleEntry),
    fan_out sdr (pre ++ post) v success l
    = match fan_out sdr pre v success l with
      | (Return r, l1) => fan_out sdr post v r l1
      | (Raise x, l1) => (Raise x, l1)
      end.
Proof.
  induction pre as [|t pre IH]; intros success l; simpl; [reflexivity|].
  destruct (truthy success); [|apply IH].
  destruct (_set_entries sdr t v l) as [[r|x] l1]; [apply IH | reflexivity].
Qed.

Lemma fan_out_keeps (t : string) (targets : list string) (v : value) :
  forall (success : pyret) (l : list ModuleEntry),
    read_entries sdr t l = Some v ->
    read_entries sdr t (snd (fan_out sdr targets v success l)) = Some v.
Proof.
  induction targets as [|t' ts IH]; intros success l H; simpl; [assumption|].
  destruct (truthy success); [|now apply IH].
  pose proof (_set_entries_keeps t t' v l H) as K.
  destruct (_set_entries sdr t' v l) as [[r|x] l1]; simpl in K.
  - now apply IH.
  - exact K.
Qed.

(** When the fan-out returns [True], every target holds the value. *)
Lemma fan_out_success (targets : list string) (v : value) :
  forall (l l' : list ModuleEntry),
    fan_out sdr targets v PyTrue l = (Return PyTrue, l') ->
    Forall (fun t => read_entries sdr t l' = Some v) targets.
Proof.
  induction targets as [|t ts IH]; intros l l' H; [constructor|].
  simpl in H.
  destruct (_set_entries sdr t v l) as [[r|x] l1] eqn:Es; [|discriminate H].
  destruct r.
  - constructor.
    + pose proof (fan_out_keeps t ts v PyTrue l1
                    (_set_entries_holds t v l l1 Es)) as K.
      now rewrite H in K.
    + now apply (IH l1).
  - rewrite fan_out_falsy in H by reflexivity. discriminate H.
  - rewrite fan_out_falsy in H by reflexivity. discriminate H.
Qed.

Lemma commit_entry (store : dict Shortcut) (ref nm : string) (v : value)
    (mp : Mapping) :
  mapping_entry store ref nm = Some mp ->
  mapping_entry (commit store ref nm v) ref nm
  = Some {| parameters := parameters mp; mvalue := Some v |}.
Proof.
  unfold mapping_entry, deref, commit.
  destruct (get store ref) as [sc|]; [|intros H; discriminate H].
  intros H. rewrite H, get_setitem_eq. simpl. apply get_setitem_eq.
Qed.

(** Whether a unit takes a parameter does not depend on the values set
    before: a later [_set] on the same members answers as it would have
    answered at first. *)
Lemma set_entry_result_stable (t t' : string) (v v' : value)
    (e : ModuleEntry) :
  fst (set_entry sdr t v (snd (set_entry sdr t' v' e)))
  = fst (set_entry sdr t v e).
Proof.
  unfold set_entry. destruct (entry_module e) as [m|] eqn:Em.
  - destruct (dynamicArgs m || contains t' (args m)) eqn:Ea'.
    + simpl. rewrite contains_setitem.
      destruct (String.eqb_spec t' t) as [->|N]; simpl.
      * rewrite Ea', orb_true_r. reflexivity.
      * destruct (dynamicArgs m || contains t (args m)); [reflexivity|].
        destruct (existsb (String.eqb t) sdr && wireless m); reflexivity.
    + destruct (existsb (String.eqb t') sdr && wireless m); simpl.
      * destruct (dynamicArgs m || contains t (args m)); [reflexivity|].
        destruct (existsb (String.eqb t) sdr && wireless m); reflexivity.
      * rewrite Em. reflexivity.
  - simpl. rewrite Em. reflexivity.
Qed.

Lemma _set_entries_result_stable (t t' : string) (v v' : value)
    (l : list ModuleEntry) :
  fst (_set_entries sdr t v (snd (_set_entries sdr t' v' l)))
  = fst (_set_entries sdr t v l).
Proof.
  pose proof (_set_entries_length t' v' l) as Hlen.
  destruct l as [|e1 [|e2 rest]].
  - reflexivity.
  - simpl. pose proof (set_entry_result_stable t t' v v' e1) as K.
    destruct (set_entry sdr t' v' e1) as [r' e']. simpl in *.
    destruct (set_entry sdr t v e') as [r1 e1'].
    destruct (set_entry sdr t v e1) as [r2 e2']. exact K.
  - rewrite (_set_entries_multi t v (snd _)) by (rewrite Hlen; simpl; lia).
    rewrite (_set_entries_multi t v (e1 :: e2 :: rest)) by (simpl; lia).
    destruct (has_char dot t); [|reflexivity].
    destruct (split dot t) as [|mn [|an [|c r]]]; try reflexivity.
    rewrite !route_entries_result.
    rewrite (_set_entries_multi t' v') by (simpl; lia).
    destruct (has_char dot t'); [|reflexivity].
    destruct (split dot t') as [|mn' [|an' [|c' r']]]; try reflexivity.
    rewrite route_entries_find.
    destruct (String.eqb_spec mn' mn) as [->|N]; [|reflexivity].
    destruct (find_entry mn (e1 :: e2 :: rest)) as [e|]; [|reflexivity].
    simpl. apply set_entry_result_stable.
Qed.

(** When every underlying [_set] answers [True], so does the fan-out. *)
Lemma fan_out_all_succeed (targets : list string) (v : value) :
  forall l : list ModuleEntry,
    Forall (fun t => fst (_set_entries sdr t v l) = Return PyTrue) targets ->
    fst (fan_out sdr targets v PyTrue l) = Return PyTrue.
Proof.
  induction targets as [|t ts IH]; intros l H; [reflexivity|].
  inversion H as [|? ? Ht Hts]; subst. simpl.
  destruct (_set_entries sdr t v l) as [[r|x] l1] eqn:E; simpl in Ht;
    [|discriminate Ht].
  injection Ht as ->. apply IH.
  apply (Forall_impl _ (P := fun t0 => fst (_set_entries sdr t0 v l)
                                       = Return PyTrue)); [|assumption].
  intros t0 H0. rewrite <- H0.
  replace l1 with (snd (_set_entries sdr t v l)) by now rewrite E.
  apply _set_entries_result_stable.
Qed.

(** The fan-out ends as the first underlying [_set] that does not answer
    [True]. *)
Lemma fan_out_first_failure (pre : list string) (t : string)
    (post : list string) (v : value) :
  forall l : list ModuleEntry,
    Forall (fun t0 => fst (_set_entries sdr t0 v l) = Return PyTrue) pre ->
    fst (_set_entries sdr t v l) <> Return PyTrue ->
    fst (fan_out sdr (pre ++ t :: post) v PyTrue l)
    = fst (_set_entries sdr t v l).
Proof.
  induction pre as [|t1 pre IH]; intros l Hpre Ht.
  - simpl. destruct (_set_entries sdr t v l) as [[r|x] l1]; simpl in *;
      [|reflexivity].
    destruct r; [congruence| |]; now rewrite fan_out_falsy.
  - inversion Hpre as [|? ? H1 Hpre']; subst. simpl.
    destruct (_set_entries sdr t1 v l) as [[r|x] l1] eqn:E; simpl in H1;
      [|discriminate H1].
    injection H1 as ->.
    assert (El : l1 = snd (_set_entries sdr t1 v l)) by now rewrite E.
    rewrite IH.
    + rewrite El. apply _set_entries_result_stable.
    + apply (Forall_impl _ (P := fun t0 => fst (_set_entries sdr t0 v l)
                                         = Return PyTrue)); [|assumption].
      intros t0 H0. rewrite <- H0, El. apply _set_entries_result_stable.
    + rewrite El, _set_entries_result_stable. assumption.
Qed.

(** C1, amended. [_set] on a shortcut slot, for a declared parameter with
    the targets [parameters mp].  When every underlying [_set] succeeds,
    the call returns [True], every target holds the value and the
    mapping's value is updated.  When one of them fails, the call fails
    the way that underlying [_set] fails, the mapping's value is left as
    it was, and the targets before the failing one hold the value: nothing
    is rolled back. *)
Theorem set_alias_parameter_commit (nm : string) (v : value) (snm : string)
    (members : list ModuleEntry) (ref : string) (store : dict Shortcut)
    (mp : Mapping) :
  mapping_entry store ref nm = Some mp ->
  exists r members' store',
    _set sdr nm v [ShortcutSlot snm members ref] store
    = (r, ([ShortcutSlot snm members' ref], store')) /\
    (Forall (fun t => fst (_set_entries sdr t v members) = Return PyTrue)
       (parameters mp) ->
       r = Return PyTrue /\
       Forall (fun t => read_entries sdr t members' = Some v)
         (parameters mp) /\
       store' = commit store ref nm v /\
       mapping_entry store' ref nm
       = Some {| parameters := parameters mp; mvalue := Some v |}) /\
    (forall pre t post,
       parameters mp = (pre ++ t :: post)%list ->
       Forall (fun t0 => fst (_set_entries sdr t0 v members) = Return PyTrue)
         pre ->
       fst (_set_entries sdr t v members) <> Return PyTrue ->
       r = fst (_set_entries sdr t v members) /\
       store' = store /\
       mapping_entry store' ref nm = Some mp /\
       Forall (fun t0 => read_entries sdr t0 members' = Some v) pre) /\
    (r = Return PyTrue ->
       Forall (fun t => read_entries sdr t members' = Some v)
         (parameters mp) /\
       mapping_entry store' ref nm
       = Some {| parameters := parameters mp; mvalue := Some v |}) /\
    (r <> Return PyTrue -> store' = store) /\
    (forall pre post,
       parameters mp = (pre ++ post)%list ->
       fst (fan_out sdr pre v PyTrue members) = Return PyTrue ->
       Forall (fun t => read_entries sdr t members' = Some v) pre).
Proof.
  intros Hmp. unfold _set, set_shortcut.
  pose proof Hmp as Hmp0.
  unfold mapping_entry in Hmp. rewrite Hmp.
  assert (Hpre : forall r members',
            fan_out sdr (parameters mp) v PyTrue members = (r, members') ->
            forall pre post,
              parameters mp = (pre ++ post)%list ->
              fst (fan_out sdr pre v PyTrue members) = Return PyTrue ->
              Forall (fun t => read_entries sdr t members' = Some v) pre).
  { intros r members' E pre post Hsplit Hok.
    rewrite Hsplit, fan_out_app in E.
    destruct (fan_out sdr pre v PyTrue members) as [[r1|x1] l1] eqn:E1;
      simpl in Hok; [|discriminate Hok].
    injection Hok as ->.
    pose proof (fan_out_success pre v members l1 E1) as Hall.
    apply (Forall_impl _ (P := fun t => read_entries sdr t l1 = Some v));
      [|assumption].
    intros t Ht.
    pose proof (fan_out_keeps t post v PyTrue l1 Ht) as K.
    now rewrite E in K. }
  pose proof (fan_out_all_succeed (parameters mp) v members) as Hall.
  assert (Hfail : forall pre t post,
            parameters mp = (pre ++ t :: post)%list ->
            Forall (fun t0 => fst (_set_entries sdr t0 v members)
                              = Return PyTrue) pre ->
            fst (_set_entries sdr t v members) <> Return PyTrue ->
            fst (fan_out sdr (parameters mp) v PyTrue members)
            = fst (_set_entries sdr t v members)).
  { intros pre t post -> H1 H2. now apply fan_out_first_failure. }
  destruct (fan_out sdr (parameters mp) v PyTrue members)
    as [[r|x] members'] eqn:E.
  - exists (Return r), members',
      (if truthy r then commit store ref nm v else store).
    split; [reflexivity|]. simpl in Hall, Hfail.
    split; [|split; [|split; [|split]]].
    + intros Hok. specialize (Hall Hok). injection Hall as ->.
      simpl. repeat split.
      * now apply (fan_out_success _ v members).
      * now apply commit_entry.
    + intros pre t post Hsplit H1 H2.
      pose proof (Hfail pre t post Hsplit H1 H2) as Er.
      assert (Hr : truthy r = false).
      { destruct r; [congruence | reflexivity | reflexivity]. }
      rewrite Hr. repeat split; auto.
      apply (Hpre (Return r) members' eq_refl pre (t :: post) Hsplit).
      now apply fan_out_all_succeed.
    + intros Hr. injection Hr as ->. simpl. split.
      * now apply (fan_out_success _ v members).
      * now apply commit_entry.
    + intros Hr. destruct r; simpl; congruence.
    + now apply (Hpre (Return r)).
  - exists (Raise x), members', store.
    split; [reflexivity|]. simpl in Hall, Hfail.
    split; [|split; [|split; [|split]]].
    + intros Hok. specialize (Hall Hok). discriminate Hall.
    + intros pre t post Hsplit H1 H2.
      pose proof (Hfail pre t post Hsplit H1 H2) as Er.
      repeat split; auto.
      apply (Hpre (Raise x) members' eq_refl pre (t :: post) Hsplit).
      now apply fan_out_all_succeed.
    + discriminate.
    + reflexivity.
    + now apply (Hpre (Raise x)).
Qed.

(** *** Running a pipeline *)

Lemma executed_app (a b : list event) :
  executed (a ++ b) = (executed a ++ executed b)%list.
Proof. unfold executed. apply flat_map_app. Qed.

Lemma wf_nil {V : Type} : wf (@nil (string * V)).
Proof. constructor. Qed.

Lemma wf_update {V : Type} (other d : dict V) : wf d -> wf (update d other).
Proof.
  unfold update. revert d. induction other as [|[k x] other IH]; intros d H;
    simpl; [assumption|].
  apply IH. now apply wf_setitem.
Qed.

Lemma get_update_other {V : Type} (other d : dict V) (K : string) :
  ~ In K (keys other) -> get (update d other) K = get d K.
Proof.
  unfold update. revert d. induction other as [|[k x] other IH]; intros d H;
    simpl; [reflexivity|].
  simpl in H. rewrite IH by tauto. apply get_setitem_neq. tauto.
Qed.

(** [update] lets the value of the later dictionary win. *)
Lemma get_update {V : Type} (other d : dict V) (K : string) (o : V) :
  wf other -> get other K = Some o -> get (update d other) K = Some o.
Proof.
  unfold wf. revert d. induction other as [|[k x] other IH]; intros d Hw Hg;
    [discriminate Hg|].
  simpl in Hw, Hg. inversion Hw as [|? ? Hk Hw']; subst.
  destruct (String.eqb_spec k K) as [->|N].
  - injection Hg as ->.
    change (update d ((K, o) :: other)) with (update (setitem d K o) other).
    rewrite get_update_other by assumption. apply get_setitem_eq.
  - change (update d ((k, x) :: other)) with (update (setitem d k x) other).
    now apply IH.
Qed.

Lemma carry_dynamicArgs (c : dict value) (m : MirageModule) :
  dynamicArgs (carry c m) = dynamicArgs m.
Proof.
  unfold carry. revert m. induction c as [|[k x] c IH]; intros m; simpl;
    [reflexivity|].
  rewrite IH. now destruct (contains k (args m) || dynamicArgs m).
Qed.

Lemma carry_other (c : dict value) (m : MirageModule) (K : string) :
  ~ In K (keys c) -> get (args (carry c m)) K = get (args m) K.
Proof.
  unfold carry. revert m. induction c as [|[k x] c IH]; intros m H; simpl;
    [reflexivity|].
  simpl in H. rewrite IH by tauto.
  destruct (contains k (args m) || dynamicArgs m); [|reflexivity].
  simpl. apply get_setitem_neq. tauto.
Qed.

(** A carried key that the unit declares, or that a unit with undeclared
    arguments receives, overwrites the unit's argument. *)
Lemma carry_overwrites (c : dict value) (m : MirageModule) (K : string)
    (o : value) :
  wf c -> get c K = Some o ->
  contains K (args m) || dynamicArgs m = true ->
  get (args (carry c m)) K = Some o.
Proof.
  unfold wf. revert m. induction c as [|[k x] c IH]; intros m Hw Hg Hd;
    [discriminate Hg|].
  simpl in Hw, Hg. inversion Hw as [|? ? Hk Hw']; subst.
  change (carry ((k, x) :: c) m)
    with (carry c (if contains k (args m) || dynamicArgs m
                   then with_args m (setitem (args m) k x) else m)).
  destruct (String.eqb_spec k K) as [->|N].
  - injection Hg as ->. rewrite Hd.
    rewrite carry_other by assumption. simpl. apply get_setitem_eq.
  - apply IH; try assumption.
    destruct (contains k (args m) || dynamicArgs m); [|assumption].
    simpl. rewrite contains_setitem.
    apply orb_true_iff in Hd as [Hd|Hd]; rewrite Hd;
      rewrite ?orb_true_r; reflexivity.
Qed.

Lemma carry_nil (m : MirageModule) : carry [] m = m.
Proof. reflexivity. Qed.

(** A unit slot that reports failure ends the run: the slots after it are
    returned untouched and nothing more is executed. *)
Lemma run_loop_unit_failure_stops (e : ModuleEntry) (m : MirageModule)
    (rest : list Slot) (rs : RunState) :
  entry_module e = Some m ->
  success (fst (execute (carry (carried rs) m))) = false ->
  exists s' rs',
    run_loop (ModuleSlot e :: rest) rs = (Return tt, (s' :: rest, rs')) /\
    executed (events rs')
    = (executed (events rs)
       ++ [(entry_name e, args (carry (carried rs) m))])%list.
Proof.
  intros Em Hf. simpl. rewrite Em. unfold run_stage.
  destruct (execute (carry (carried rs) m)) as [out m2]. simpl in Hf.
  rewrite Hf. eexists _, _. split; [reflexivity|]. simpl.
  rewrite !executed_app. simpl. now rewrite app_nil_r.
Qed.

(** C4, amended. In a pipeline of two unit slots where the first reports
    success with an output holding [K], and the second declares [K] or
    takes undeclared arguments: both stages execute, and the second runs
    with [K] equal to the first's output value, whatever its argument held
    before.  Moreover a successful stage's output overwrites the carried
    value of the same key, and every stage, unit slot or member of a
    shortcut, runs with the carried value of each key it accepts. *)
Theorem run_carries_output :
  (forall (app : App) (n1 n2 : string) (m1 m2 : MirageModule) (K : string)
          (o : value),
     modules app
     = [ModuleSlot {| entry_name := n1; entry_module := Some m1 |};
        ModuleSlot {| entry_name := n2; entry_module := Some m2 |}] ->
     success (fst (execute m1)) = true ->
     wf (output (fst (execute m1))) ->
     get (output (fst (execute m1))) K = Some o ->
     contains K (args m2) || dynamicArgs m2 = true ->
     exists a2,
       executed (log (snd (run app)))
       = (executed (log app) ++ [(n1, args m1); (n2, a2)])%list /\
       get a2 K = Some o) /\
  (forall (nm : string) (m : MirageModule) (rs : RunState) (K : string)
          (o : value),
     success (fst (execute (carry (carried rs) m))) = true ->
     wf (output (fst (execute (carry (carried rs) m)))) ->
     get (output (fst (execute (carry (carried rs) m)))) K = Some o ->
     get (carried (snd (run_stage nm m rs))) K = Some o) /\
  (forall (nm : string) (m : MirageModule) (rs : RunState) (K : string)
          (o : value),
     wf (carried rs) -> get (carried rs) K = Some o ->
     contains K (args m) || dynamicArgs m = true ->
     exists a,
       events (snd (run_stage nm m rs))
       = (events rs ++ [Executed nm a])%list /\
       get a K = Some o).
Proof.
  split; [|split].
  - intros app n1 n2 m1 m2 K o Hm Hs Hw Hg Hd.
    unfold run. rewrite Hm. simpl. unfold run_stage at 1. simpl carried.
    rewrite carry_nil. destruct (execute m1) as [out1 m1'] eqn:E1.
    simpl in Hs, Hw, Hg. rewrite Hs. simpl.
    set (c1 := update [] (output out1)).
    assert (Hc : get (args (carry c1 m2)) K = Some o).
    { apply carry_overwrites; [|now apply get_update|assumption].
      apply wf_update, wf_nil. }
    exists (args (carry c1 m2)). split; [|assumption].
    unfold run_stage. simpl carried.
    destruct (execute (carry c1 m2)) as [out2 m2'].
    destruct (success out2); simpl; rewrite !executed_app; simpl;
      rewrite ?app_nil_r, <- ?app_assoc; reflexivity.
  - intros nm m rs K o Hs Hw Hg. unfold run_stage.
    destruct (execute (carry (carried rs) m)) as [out m']. simpl in *.
    rewrite Hs. simpl. now apply get_update.
  - intros nm m rs K o Hw Hg Hd.
    exists (args (carry (carried rs) m)).
    split; [|now apply carry_overwrites].
    unfold run_stage. destruct (execute (carry (carried rs) m)) as [out m'].
    now destruct (success out).
Qed.

End PipelineFacts.

(** ** The properties on the sample data *)

(** C1, as stated, fails: [TARGET] fans out to [TARGET] and [ADDRESS], the
    unit declares [TARGET] only, so the second underlying [_set] raises
    [IncorrectParameter] -- and the first target has been mutated. *)
Lemma set_alias_parameter_not_all_or_nothing :
  exists members',
    _set [] "TARGET" "AA:BB" [ShortcutSlot "conn" conn_members_partial "conn"]
      conn_store
    = (Raise IncorrectParameter,
       ([ShortcutSlot "conn" members' "conn"], conn_store)) /\
    read_entries [] "TARGET" conn_members_partial = Some "" /\
    read_entries [] "TARGET" members' = Some "AA:BB" /\
    members' <> conn_members_partial.
Proof.
  eexists. split; [reflexivity|]. split; [reflexivity|].
  split; [reflexivity|]. discriminate.
Defined.

Lemma set_alias_parameter_commit_sample :
  exists members',
    _set [] "TARGET" "AA:BB" [ShortcutSlot "conn" conn_members_full "conn"]
      conn_store
    = (Return PyTrue,
       ([ShortcutSlot "conn" members' "conn"],
        commit conn_store "conn" "TARGET" "AA:BB")) /\
    Forall (fun t => read_entries [] t members' = Some "AA:BB")
      ["TARGET"; "ADDRESS"] /\
    mapping_entry (commit conn_store "conn" "TARGET" "AA:BB") "conn" "TARGET"
    = Some {| parameters := ["TARGET"; "ADDRESS"]; mvalue := Some "AA:BB" |}.
Proof.
  destruct (set_alias_parameter_commit [] "TARGET" "AA:BB" "conn"
              conn_members_full "conn" conn_store
              {| parameters := ["TARGET"; "ADDRESS"]; mvalue := None |}
              eq_refl)
    as (r & members' & store' & E & Hok & _).
  destruct Hok as (Hr & Hall & Hs & Hm); [repeat constructor|].
  subst r store'. exists members'. repeat split; assumption.
Defined.

Lemma load_unresolvable_keeps_pipeline_sample :
  let app := with_modules sample_app (carrying_pipeline true) in
  modules (snd (load [] "x|nope|scan" app)) = carrying_pipeline true /\
  loaded_shortcuts (snd (load [] "x|nope|scan" app)) = loaded_shortcuts app.
Proof.
  intros app.
  apply (load_unresolvable_keeps_pipeline [] "x|nope|scan" "nope" app).
  - simpl. auto.
  - split; reflexivity.
Defined.

(** C3 on the code: the only member of the shortcut in first position
    reports failure, and the two stages after it are executed all the
    same. *)
Theorem run_shortcut_failure_continues :
  let app := with_modules sample_app failing_shortcut_pipeline in
  fst (run app) = Return tt /\
  executed (log (snd (run app)))
  = [("ble_scan", []); ("ble_connect2", [("TARGET", "")]);
     ("x3", [("A", "")])] /\
  log (snd (run app))
  = [Executed "ble_scan" [];
     Fail "Execution of shortcut scan1 failed!";
     Executed "ble_connect2" [("TARGET", "")];
     Executed "x3" [("A", "")]].
Proof. repeat split. Qed.

(** C4, as stated, fails: the first stage's output holds [TARGET] and the
    second stage declares [TARGET], but the first stage reports failure,
    so the second stage is not executed at all. *)
Lemma run_failed_stage_skips_next :
  let app := with_modules sample_app (carrying_pipeline false) in
  get (output (fst (execute (sample_unit "ble_scan" [] false
                               [("TARGET", "AA:BB")])))) "TARGET"
  = Some "AA:BB" /\
  contains "TARGET" (args (sample_unit "ble_connect" [("TARGET", "user")]
                             true [])) = true /\
  executed (log (snd (run app))) = [("ble_scan1", [])].
Proof. repeat split. Defined.

Lemma run_carries_output_sample :
  let app := with_modules sample_app (carrying_pipeline true) in
  exists a2,
    executed (log (snd (run app)))
    = [("ble_scan1", []); ("ble_connect2", a2)] /\
    get a2 "TARGET" = Some "AA:BB".
Proof.
  intros app.
  apply (proj1 run_carries_output app "ble_scan1" "ble_connect2"
           (sample_unit "ble_scan" [] true [("TARGET", "AA:BB")])
           (sample_unit "ble_connect" [("TARGET", "user")] true [])
           "TARGET" "AA:BB").
  - reflexivity.
  - reflexivity.
  - unfold wf. simpl. repeat constructor. simpl. tauto.
  - reflexivity.
  - reflexivity.
Defined.

(** C5 on the code: the shortcut [scan] maps its parameter [INTERFACE] to
    the argument [IFACE] with the default [hci1].  After the load the
    argument [IFACE] still holds its own value and the default sits in the
    argument named like the shortcut's parameter; with a unit that declares
    [IFACE] only, the load raises [IncorrectParameter] and installs
    nothing. *)
Theorem load_default_misses_mapped_argument :
  mapping_entry (loaded_shortcuts sample_app) "scan" "INTERFACE"
  = Some {| parameters := ["IFACE"]; mvalue := Some "hci1" |} /\
  (exists members,
     load [] "scan" sample_app
     = (Return tt,
        {| modulesList := modulesList sample_app; datas := [];
           loaded_shortcuts := loaded_shortcuts sample_app;
           modules := [ShortcutSlot "scan" members "scan"];
           prompt := " << scan >>~~> ";
           log := [Fail "Module scan not found";
                   Info "Shortcut scan loaded!"] |}) /\
     read_entries [] "IFACE" members = Some "hci0" /\
     read_entries [] "INTERFACE" members = Some "hci1") /\
  fst (load [] "scan" sample_app_strict) = Raise IncorrectParameter /\
  modules (snd (load [] "scan" sample_app_strict)) = [].
Proof.
  split; [reflexivity|]. split; [|split; reflexivity].
  eexists. split; [reflexivity|]. split; reflexivity.
Qed.

Lemma load_display_names_sample :
  map slot_name (modules (snd (load [] "x|x" sample_app))) = ["x1"; "x2"] /\
  map slot_name (modules (snd (load [] "x" sample_app))) = ["x"].
Proof.
  destruct (load_display_names [] sample_app "x"
              (sample_unit "x" [("A", "")] true []) []
              eq_refl eq_refl) as (H1 & H2 & _).
  split; [exact H1 | exact H2].
Defined.

Lemma set_unknown_slot_prefix_is_silent_sample :
  let app := with_modules sample_app (carrying_pipeline true) in
  _set [] "zz.TARGET" "v" (modules app) (loaded_shortcuts app)
  = (Return PyNone, (modules app, loaded_shortcuts app)) /\
  set [] "zz.TARGET" "v" app = app.
Proof.
  intros app.
  apply (set_unknown_slot_prefix_is_silent [] "zz" "TARGET" "v" app).
  - simpl. lia.
  - reflexivity.
  - reflexivity.
  - intros s [<-|[<-|[]]]; discriminate.
Defined.

(* ===================================================================== *)
(** * Further properties of the task manager *)
(* ===================================================================== *)

Section TaskLifecycle.
Import Tasks.

Lemma setitem_absent {V : Type} (d : dict V) (k : string) (v : V) :
  contains k d = false -> setitem d k v = (d ++ [(k, v)])%list.
Proof.
  unfold contains. induction d as [|[k0 v0] d IH]; simpl; [reflexivity|].
  destruct (String.eqb k0 k); [discriminate|].
  intros H. now rewrite IH.
Qed.




(** The name the loop of [addTask] returns is not registered. *)
Lemma addTask_loop_free (fuel : nat) :
  forall (tasks : TaskManager) (b t : string) (c : nat) (n : string),
    addTask_loop fuel tasks b t c = Some n -> contains n tasks = false.
Proof.
  induction fuel as [|fuel IH]; intros tasks b t c n; simpl;
    destruct (contains t tasks) eqn:E; intros H; try discriminate.
  - now injection H as <-.
  - now apply IH in H.
  - now injection H as <-.
Qed.

(** X1. [startTask] succeeds exactly for a registered task in state
    [stopped]; otherwise it returns [False] and the registry, with every
    pid in it, is what it was.  When it succeeds the task is running under
    the pid it was given, its output file is [<tempDir>/<name>-<pid>.out],
    and nothing else in the registry has changed. *)
Theorem startTask_only_stopped (tempDir : string) (p : nat) (nm : string)
    (tasks : TaskManager) :
  (fst (startTask tempDir p nm tasks) = true <->
     exists t, get tasks nm = Some t /\ state t = stopped) /\
  (fst (startTask tempDir p nm tasks) = false ->
     snd (startTask tempDir p nm tasks) = tasks) /\
  (fst (startTask tempDir p nm tasks) = true ->
     exists t,
       get tasks nm = Some t /\
       get (snd (startTask tempDir p nm tasks)) nm
       = Some (Task_start tempDir p t) /\
       getTaskState nm (snd (startTask tempDir p nm tasks)) = Some "running" /\
       getTaskPID nm (snd (startTask tempDir p nm tasks)) = Some (Some p) /\
       outputFilename (Task_start tempDir p t)
       = tempDir ++ "/" ++ taskName t ++ "-" ++ str p ++ ".out" /\
       keys (snd (startTask tempDir p nm tasks)) = keys tasks /\
       forall k, k <> nm ->
         get (snd (startTask tempDir p nm tasks)) k = get tasks k).
Proof.
  unfold startTask, getTaskState, getTaskPID.
  destruct (get tasks nm) as [t|] eqn:E.
  - destruct (state t) eqn:St; simpl.
    + split; [|split].
      * split; eauto.
      * discriminate.
      * intros _. exists t. rewrite get_setitem_eq. simpl.
        repeat split; auto.
        -- rewrite keys_setitem. unfold contains. now rewrite E.
        -- intros k N. apply get_setitem_neq. congruence.
    + split; [|split]; auto; try discriminate.
      split; [discriminate|]. intros (t' & Ht & Hs). congruence.
    + split; [|split]; auto; try discriminate.
      split; [discriminate|]. intros (t' & Ht & Hs). congruence.
  - simpl. split; [|split]; auto; try discriminate.
    split; [discriminate|]. intros (t' & Ht & _). discriminate.
Qed.

(** X2. [restartTask] on a name that is not registered returns [False]
    and changes nothing.  On a registered name, whatever the state of the
    task, it returns [True] and the name then holds a new task, running
    under the new pid, built from the old task's function and arguments;
    the tasks under other names are untouched. *)
Theorem restartTask_replaces (ident : nat) (tempDir : string) (p : nat)
    (nm : string) (tasks : TaskManager) :
  (get tasks nm = None ->
     restartTask ident tempDir p nm tasks = (false, tasks)) /\
  (forall task, get tasks nm = Some task ->
     fst (restartTask ident tempDir p nm tasks) = true /\
     get (snd (restartTask ident tempDir p nm tasks)) nm
     = Some (Task_start tempDir p
               (Task_init ident (function task) nm (args task)
                  (kwargs task))) /\
     getTaskState nm (snd (restartTask ident tempDir p nm tasks))
     = Some "running" /\
     forall k, k <> nm ->
       get (snd (restartTask ident tempDir p nm tasks)) k = get tasks k).
Proof.
  unfold restartTask, getTaskState. split.
  - intros H. now rewrite H.
  - intros task H. rewrite H. simpl. rewrite get_setitem_eq.
    repeat split.
    intros k N. rewrite get_setitem_neq by congruence.
    unfold stopTask. rewrite H. destruct (state task); simpl; try reflexivity.
    rewrite get_delitem_neq, get_setitem_neq; congruence.
Qed.

(** X3. The registry invariant (each name once, every task stored under
    its own [taskName]) is kept by every operation of the manager, and by
    [stopAllTasks] whatever processes finish while it runs. *)
Theorem registry_ok_kept (tasks : TaskManager) :
  registry_ok tasks ->
  (forall ident f nm a kw,
     exists n tasks', addTask ident f nm a kw tasks = Some (n, tasks') /\
                      registry_ok tasks') /\
  (forall tempDir p nm, registry_ok (snd (startTask tempDir p nm tasks))) /\
  (forall nm, registry_ok (snd (stopTask nm tasks))) /\
  (forall ident tempDir p nm,
     registry_ok (snd (restartTask ident tempDir p nm tasks))) /\
  (forall sched, registry_ok (snd (stopAllTasks sched tasks))).
Proof.
  intros Hok. split; [|split; [|split; [|split]]].
  - intros ident f nm a kw.
    destruct (addTask_total ident f nm a kw tasks) as [n E].
    eexists _, _. split; [exact E|]. now apply registry_ok_setitem.
  - intros. now apply registry_ok_startTask.
  - intros. now apply registry_ok_stopTask.
  - intros ident tempDir p nm. unfold restartTask.
    destruct (get tasks nm) as [task|]; [|assumption].
    simpl. apply registry_ok_setitem; [reflexivity|].
    now apply registry_ok_stopTask.
  - intros sched. unfold stopAllTasks.
    now apply registry_ok_stopAllTasks_loop.
Qed.

Lemma registry_ok_kept_sample :
  registry_ok (snd (stopTask "sniff" sample_tasks)) /\
  registry_ok (snd (restartTask 7 "/tmp/mirage" 4300 "sniff" sample_tasks)).
Proof.
  destruct (registry_ok_kept sample_tasks sample_tasks_ok)
    as (_ & _ & Hstop & Hrestart & _).
  split; [apply Hstop | apply Hrestart].
Defined.

Lemma map_row_name_toList (l : list Task) :
  map row_name (map toList l) = map taskName l.
Proof. rewrite map_map. reflexivity. Qed.

Lemma registry_ok_taskNames (tasks : TaskManager) :
  registry_ok tasks -> map taskName (values tasks) = keys tasks.
Proof.
  intros [_ Hn]. unfold values, keys. rewrite map_map.
  induction tasks as [|[k t] tasks IH]; simpl; [reflexivity|].
  inversion Hn as [|? ? H0 Hn']; subst. simpl in H0. rewrite H0.
  f_equal. now apply IH.
Qed.

Lemma NoDup_map_filter {A B : Type} (g : A -> B) (f : A -> bool)
    (l : list A) :
  NoDup (map g l) -> NoDup (map g (filter f l)).
Proof.
  induction l as [|x l IH]; simpl; [auto|].
  intros H. inversion H as [|? ? Hx Hl]; subst.
  destruct (f x); [|auto]. simpl. constructor; [|auto].
  intros I. apply Hx. apply in_map_iff in I as (y & E & I).
  apply filter_In in I as [I _]. apply in_map_iff. eauto.
Qed.

Lemma str_in_empty (s : string) : str_in "" s = true.
Proof. destruct s; reflexivity. Qed.

(** X4. In a listing no task name comes twice, whatever the pattern; and
    the empty pattern filters nothing: the listing has one row per task,
    in the order of registration. *)
Theorem getTasksList_names (tasks : TaskManager) (pattern : string) :
  registry_ok tasks ->
  NoDup (map row_name (getTasksList pattern tasks)) /\
  getTasksList "" tasks = map toList (values tasks) /\
  map row_name (getTasksList "" tasks) = keys tasks.
Proof.
  intros Hok.
  assert (He : getTasksList "" tasks = map toList (values tasks)).
  { unfold getTasksList. f_equal.
    apply forallb_filter_id. apply forallb_forall. intros t _.
    now rewrite str_in_empty. }
  split; [|split].
  - unfold getTasksList. rewrite map_row_name_toList.
    apply NoDup_map_filter. rewrite (registry_ok_taskNames tasks Hok).
    exact (proj1 Hok).
  - exact He.
  - rewrite He, map_row_name_toList. now apply registry_ok_taskNames.
Qed.

Lemma getTasksList_names_sample :
  NoDup (map row_name (getTasksList "4" sample_tasks)) /\
  map row_name (getTasksList "" sample_tasks) = ["scan"; "sniff"; "probe"].
Proof.
  destruct (getTasksList_names sample_tasks "4" sample_tasks_ok)
    as (H1 & _ & H3).
  split; [exact H1 | exact H3].
Defined.

(** X5. [addTask] always returns; the name it returns was not registered,
    the new task is appended after the tasks that were there, which are
    left as they were, and without a collision the name is the requested
    one, or the function's name when none was requested. *)
Theorem addTask_appends (ident : nat) (f : Function) (nm : string)
    (a : list value) (kw : dict value) (tasks : TaskManager) :
  exists n,
    addTask ident f nm a kw tasks
    = Some (n, (tasks ++ [(n, Task_init ident f n a kw)])%list) /\
    contains n tasks = false /\
    (contains (if String.eqb nm "" then fn_name f else nm) tasks = false ->
     n = if String.eqb nm "" then fn_name f else nm).
Proof.
  destruct (addTask_total ident f nm a kw tasks) as [n E].
  exists n. unfold addTask in *.
  set (b := if String.eqb nm "" then fn_name f else nm) in *.
  destruct (addTask_loop (length tasks) tasks b b 1) as [n'|] eqn:El;
    [|discriminate E].
  injection E as -> _.
  pose proof (addTask_loop_free _ _ _ _ _ _ El) as Hfree.
  rewrite (setitem_absent tasks n _ Hfree).
  repeat split; [assumption|].
  intros Hb. destruct (length tasks); simpl in El; rewrite Hb in El;
    now injection El.
Qed.






End TaskLifecycle.

(* ===================================================================== *)
(** * Further properties of the pipeline *)
(* ===================================================================== *)

Section PipelineMore.

Variable sdr : list string.

(** Setting one parameter of a unit leaves the others as they read. *)
Lemma set_entry_others (nm nm' : string) (v : value) (e : ModuleEntry) :
  nm' <> nm ->
  read_entry sdr nm' (snd (set_entry sdr nm v e)) = read_entry sdr nm' e.
Proof.
  intros N. unfold set_entry, read_entry.
  destruct (entry_module e) as [m|] eqn:Em; simpl; [|now rewrite Em].
  destruct (dynamicArgs m || contains nm (args m)); simpl.
  - rewrite contains_setitem.
    destruct (String.eqb_spec nm nm') as [E|_]; [congruence|]. simpl.
    rewrite get_setitem_neq by congruence. reflexivity.
  - destruct (existsb (String.eqb nm) sdr && wireless m); simpl.
    + rewrite get_setitem_neq by congruence. reflexivity.
    + now rewrite Em.
Qed.

(** X8. With one unit loaded, [_set] succeeds exactly when the unit takes
    the parameter.  Then the parameter reads back as the value set, every
    other parameter reads as before, and the slot keeps its name.
    Otherwise [IncorrectParameter] is raised and nothing has changed. *)
Theorem set_single_unit (nm : string) (v : value) (e : ModuleEntry)
    (m : MirageModule) (store : dict Shortcut) :
  entry_module e = Some m ->
  (accepts sdr m nm = true ->
   exists e',
     _set sdr nm v [ModuleSlot e] store
     = (Return PyTrue, ([ModuleSlot e'], store)) /\
     read_entry sdr nm e' = Some v /\
     entry_name e' = entry_name e /\
     forall nm', nm' <> nm -> read_entry sdr nm' e' = read_entry sdr nm' e) /\
  (accepts sdr m nm = false ->
   _set sdr nm v [ModuleSlot e] store
   = (Raise IncorrectParameter, ([ModuleSlot e], store))).
Proof.
  intros Em. rewrite _set_module_singleton. unfold accepts.
  pose proof (set_entry_holds sdr nm v e) as Hh.
  pose proof (set_entry_name sdr nm v e) as Hname.
  pose proof (fun nm' => set_entry_others nm nm' v e) as Hothers.
  unfold set_entry in *. rewrite Em in *.
  destruct (dynamicArgs m || contains nm (args m)); simpl.
  - split; [|discriminate]. intros _. eexists. split; [reflexivity|].
    simpl in *. auto.
  - destruct (existsb (String.eqb nm) sdr && wireless m); simpl.
    + split; [|discriminate]. intros _. eexists. split; [reflexivity|].
      simpl in *. auto.
    + split; [discriminate | reflexivity].
Qed.

(** The routing loop changes at most one slot, one that has the display
    name. *)
Lemma route_changes_one (P N : string) (v : value) (l : list Slot)
    (store : dict Shortcut) :
  fst (snd (route sdr P N v l store)) = l \/
  exists pre s s' post,
    l = (pre ++ s :: post)%list /\
    fst (snd (route sdr P N v l store)) = (pre ++ s' :: post)%list /\
    slot_name s = P /\ slot_name s' = P.
Proof.
  induction l as [|s l IH]; simpl; [now left|].
  assert (Hcont :
    (let '(r, (rest', store')) := route sdr P N v l store in
     fst (snd (r, (s :: rest', store'))) = s :: l) \/
    exists pre s0 s' post,
      s :: l = (pre ++ s0 :: post)%list /\
      (let '(r, (rest', store')) := route sdr P N v l store in
       fst (snd (r, (s :: rest', store')))) = (pre ++ s' :: post)%list /\
      slot_name s0 = P /\ slot_name s' = P).
  { destruct (route sdr P N v l store) as [r [rest' store']]. simpl in *.
    destruct IH as [->|(pre & s0 & s' & post & -> & -> & H1 & H2)];
      [now left|].
    right. exists (s :: pre), s0, s', post. auto. }
  destruct s as [e|snm shortcut mapping].
  - destruct (entry_module e) as [m|] eqn:Em.
    + destruct (String.eqb_spec P (entry_name e)) as [E|_].
      * right. pose proof (set_entry_name sdr N v e) as Hn.
        destruct (set_entry sdr N v e) as [r e']. simpl in *.
        exists [], (ModuleSlot e), (ModuleSlot e'), l. simpl.
        repeat split; congruence.
      * destruct (route sdr P N v l store) as [r [rest' store']].
        exact Hcont.
    + destruct (route sdr P N v l store) as [r [rest' store']].
      exact Hcont.
  - destruct (String.eqb_spec P snm) as [E|_].
    + right.
      destruct (set_shortcut sdr N v shortcut mapping store)
        as [r [shortcut' store']].
      exists [], (ShortcutSlot snm shortcut mapping),
        (ShortcutSlot snm shortcut' mapping), l. simpl.
      repeat split; congruence.
    + destruct (route sdr P N v l store) as [r [rest' store']].
      exact Hcont.
Qed.

(** [commit] writes one value: the parameter [nm] of the shortcut [ref]
    reads as the value, and every other parameter of every shortcut reads
    as before. *)
Lemma commit_frame (store : dict Shortcut) (ref nm : string) (v : value)
    (ref' nm' : string) :
  ref' <> ref \/ nm' <> nm ->
  mapping_entry (commit store ref nm v) ref' nm' = mapping_entry store ref' nm'.
Proof.
  intros H. unfold mapping_entry, deref, commit.
  destruct (get store ref) as [sc|] eqn:Es; [|reflexivity].
  destruct (get (sc_mapping sc) nm) as [mp|] eqn:Em; [|reflexivity].
  destruct (String.eqb_spec ref ref') as [<-|N].
  - rewrite get_setitem_eq, Es. simpl.
    destruct H as [H|H]; [congruence|].
    apply get_setitem_neq. congruence.
  - now rewrite get_setitem_neq.
Qed.

(** What the routing loop does to the shortcut store: nothing, unless the
    slot it reaches is a shortcut slot and the fan-out returns [True]; then
    it commits the value in the mapping that slot refers to. *)
Lemma route_store (P N : string) (v : value) (l : list Slot)
    (store : dict Shortcut) :
  snd (snd (route sdr P N v l store)) = store \/
  exists pre members ref post mp,
    l = (pre ++ ShortcutSlot P members ref :: post)%list /\
    mapping_entry store ref N = Some mp /\
    fst (route sdr P N v l store) = Return PyTrue /\
    snd (snd (route sdr P N v l store)) = commit store ref N v.
Proof.
  induction l as [|s l IH]; simpl; [now left|].
  assert (Hcont :
    (let '(r, (rest', store')) := route sdr P N v l store in
     snd (snd (r, (s :: rest', store'))) = store) \/
    exists pre members ref post mp,
      s :: l = (pre ++ ShortcutSlot P members ref :: post)%list /\
      mapping_entry store ref N = Some mp /\
      (let '(r, (rest', store')) := route sdr P N v l store in
       fst (r, (s :: rest', store'))) = Return PyTrue /\
      (let '(r, (rest', store')) := route sdr P N v l store in
       snd (snd (r, (s :: rest', store')))) = commit store ref N v).
  { destruct (route sdr P N v l store) as [r [rest' store']]. simpl in *.
    destruct IH as [->|(pre & members & ref & post & mp & -> & H1 & H2 & H3)];
      [now left|].
    right. exists (s :: pre), members, ref, post, mp. auto. }
  destruct s as [e|snm shortcut mapping].
  - destruct (entry_module e) as [m|] eqn:Em.
    + destruct (String.eqb_spec P (entry_name e)) as [E|_].
      * left. now destruct (set_entry sdr N v e).
      * destruct (route sdr P N v l store) as [r [rest' store']].
        exact Hcont.
    + destruct (route sdr P N v l store) as [r [rest' store']].
      exact Hcont.
  - destruct (String.eqb_spec P snm) as [<-|_].
    + unfold set_shortcut.
      destruct (get (deref store mapping) N) as [mp|] eqn:Emp; [|now left].
      destruct (fan_out sdr (parameters mp) v PyTrue shortcut)
        as [[r|x] shortcut']; [|now left].
      destruct r; simpl; try (now left).
      right. exists [], shortcut, mapping, l, mp. simpl. auto.
    + destruct (route sdr P N v l store) as [r [rest' store']].
      exact Hcont.
Qed.

(** X9. With several slots loaded, [_set] with a dotted name [P.N]
    changes the units of at most one slot, and that slot has the display
    name [P]; the display names, their order and the number of slots stay
    the same whatever the outcome.  The shortcut store changes only when
    the slot reached is a shortcut slot and the call returns [True], and
    then in one place: the value of the parameter [N] of the shortcut that
    slot refers to.  A slot holds its mapping by reference, so every other
    slot loaded from the same shortcut reads the new value as well. *)
Theorem set_dotted_changes_one_slot (P N : string) (v : value)
    (l : list Slot) (store : dict Shortcut) :
  2 <= length l ->
  has_char dot P = false -> has_char dot N = false ->
  map slot_name (fst (snd (_set sdr (P ++ "." ++ N) v l store)))
  = map slot_name l /\
  (fst (snd (_set sdr (P ++ "." ++ N) v l store)) = l \/
   exists pre s s' post,
     l = (pre ++ s :: post)%list /\
     fst (snd (_set sdr (P ++ "." ++ N) v l store))
     = (pre ++ s' :: post)%list /\
     slot_name s = P /\ slot_name s' = P) /\
  (snd (snd (_set sdr (P ++ "." ++ N) v l store)) = store \/
   exists pre members ref post mp,
     l = (pre ++ ShortcutSlot P members ref :: post)%list /\
     mapping_entry store ref N = Some mp /\
     fst (_set sdr (P ++ "." ++ N) v l store) = Return PyTrue /\
     snd (snd (_set sdr (P ++ "." ++ N) v l store)) = commit store ref N v /\
     mapping_entry (snd (snd (_set sdr (P ++ "." ++ N) v l store))) ref N
     = Some {| parameters := parameters mp; mvalue := Some v |} /\
     (forall ref' nm', ref' <> ref \/ nm' <> N ->
        mapping_entry (snd (snd (_set sdr (P ++ "." ++ N) v l store)))
          ref' nm'
        = mapping_entry store ref' nm') /\
     (forall snm' members',
        In (ShortcutSlot snm' members' ref)
          (fst (snd (_set sdr (P ++ "." ++ N) v l store))) ->
        option_map mvalue
          (get (deref (snd (snd (_set sdr (P ++ "." ++ N) v l store))) ref)
             N)
        = Some (Some v))).
Proof.
  intros Hlen HP HN.
  destruct l as [|s1 [|s2 rest]]; simpl in Hlen; try lia.
  rewrite (_set_dotted sdr P N v s1 s2 rest store HP HN).
  pose proof (route_changes_one P N v (s1 :: s2 :: rest) store) as H.
  split; [|split; [exact H|]].
  - destruct H as [->|(pre & s & s' & post & -> & -> & H1 & H2)];
      [reflexivity|].
    rewrite !map_app. simpl. congruence.
  - destruct (route_store P N v (s1 :: s2 :: rest) store)
      as [Hs|(pre & members & ref & post & mp & El & Hmp & Hr & Hs)];
      [now left|].
    right. exists pre, members, ref, post, mp.
    rewrite Hs. repeat split; auto.
    + now apply commit_entry.
    + intros ref' nm'. apply commit_frame.
    + intros _ _ _.
      pose proof (commit_entry store ref N v mp Hmp) as Hc.
      unfold mapping_entry in Hc. rewrite Hc. reflexivity.
Qed.

(** *** Configuration data at load time *)

Lemma dataExists_getData (ds : dict (dict value)) (m a : string) :
  dataExists ds m a
  = match getData ds m a with Some _ => true | None => false end.
Proof.
  unfold dataExists, getData, contains. now destruct (get ds m).
Qed.

Lemma existsb_keys {V : Type} (d : dict V) (a : string) :
  existsb (String.eqb a) (keys d) = contains a d.
Proof.
  unfold contains. induction d as [|[k x] d IH]; simpl; [reflexivity|].
  rewrite String.eqb_sym. destruct (String.eqb k a); simpl; [reflexivity|].
  exact IH.
Qed.

(** The loop of [apply_config] over a list of declared arguments. *)
Lemma apply_config_loop (ds : dict (dict value)) (m : string)
    (ks : list string) :
  forall o : MirageModule,
    (forall k, In k ks -> contains k (args o) = true) ->
    let o' :=
      fold_left
        (fun o argument =>
           if dataExists ds m argument then
             match getData ds m argument with
             | Some v => with_args o (setitem (args o) argument v)
             | None => o
             end
           else o) ks o in
    keys (args o') = keys (args o) /\
    forall a,
      get (args o') a
      = match (if existsb (String.eqb a) ks then getData ds m a else None) with
        | Some v => Some v
        | None => get (args o) a
        end.
Proof.
  induction ks as [|k ks IH]; intros o Hk; simpl; [auto|].
  rewrite dataExists_getData.
  assert (Hc : contains k (args o) = true) by (apply Hk; now left).
  destruct (getData ds m k) as [vk|] eqn:Ek.
  - destruct (IH (with_args o (setitem (args o) k vk))) as [IHk IHg].
    { intros k' I. simpl. rewrite contains_setitem.
      rewrite (Hk k') by now right. apply orb_true_r. }
    simpl in IHk, IHg. split.
    + rewrite IHk, keys_setitem, Hc. reflexivity.
    + intros a. rewrite IHg.
      destruct (String.eqb_spec a k) as [->|N]; simpl.
      * rewrite Ek, get_setitem_eq. now destruct (existsb _ ks).
      * rewrite get_setitem_neq by congruence. reflexivity.
  - destruct (IH o) as [IHk IHg]; [intros k' I; apply Hk; now right|].
    split; [exact IHk|].
    intros a. rewrite IHg.
    destruct (String.eqb_spec a k) as [->|N]; simpl; [|reflexivity].
    rewrite Ek. now destruct (existsb _ ks).
Qed.

(** X10. The values the configuration file gives for a unit override the
    unit's declared arguments and nothing else: after the loop of [load]
    the unit has the arguments it declared, in the same order; an argument
    with configuration data holds that data, the others keep their
    defaults, and data for an undeclared argument is ignored. *)
Theorem apply_config_overrides_declared (ds : dict (dict value))
    (m : string) (out : MirageModule) :
  keys (args (apply_config ds m out)) = keys (args out) /\
  (forall a v, contains a (args out) = true -> getData ds m a = Some v ->
     get (args (apply_config ds m out)) a = Some v) /\
  (forall a, getData ds m a = None ->
     get (args (apply_config ds m out)) a = get (args out) a) /\
  (forall a, contains a (args out) = false ->
     get (args (apply_config ds m out)) a = None).
Proof.
  destruct (apply_config_loop ds m (keys (args out)) out) as [Hk Hg].
  { intros k I. now apply contains_In_keys. }
  fold (apply_config ds m out) in Hk, Hg.
  split; [exact Hk|]. split; [|split].
  - intros a v Hc Hd. rewrite Hg, existsb_keys, Hc, Hd. reflexivity.
  - intros a Hd. rewrite Hg, Hd. now destruct (existsb _ _).
  - intros a Hc. rewrite Hg, existsb_keys, Hc.
    now apply contains_false_get.
Qed.

(** *** Running *)

Lemma run_stage_events (nm : string) (m : MirageModule) (rs : RunState) :
  events (snd (run_stage nm m rs))
  = (events rs ++ [Executed nm (args (carry (carried rs) m))])%list.
Proof.
  unfold run_stage. destruct (execute (carry (carried rs) m)) as [out m'].
  now destruct (success out).
Qed.

Lemma run_shortcut_shape (snm : string) (l : list ModuleEntry) :
  forall rs,
    map entry_name (fst (snd (run_shortcut snm l rs))) = map entry_name l /\
    exists evs,
      events (snd (snd (run_shortcut snm l rs))) = (events rs ++ evs)%list.
Proof.
  induction l as [|e l IH]; intros rs; simpl.
  - split; [reflexivity|]. exists []. now rewrite app_nil_r.
  - destruct (entry_module e) as [m|]; simpl.
    + pose proof (run_stage_events (entry_name e) m rs) as He.
      destruct (run_stage (entry_name e) m rs) as [[ok m'] rs1].
      simpl in He. destruct ok.
      * destruct (IH rs1) as [Hn [evs Hev]].
        destruct (run_shortcut snm l rs1) as [r [rest' rs2]]. simpl in *.
        split; [now rewrite Hn|].
        eexists. rewrite Hev, He, <- app_assoc. reflexivity.
      * simpl. split; [reflexivity|].
        eexists. rewrite He, <- app_assoc. reflexivity.
    + split; [reflexivity|]. exists []. now rewrite app_nil_r.
Qed.

Lemma run_loop_shape (l : list Slot) :
  forall rs,
    map slot_name (fst (snd (run_loop l rs))) = map slot_name l /\
    exists evs, events (snd (snd (run_loop l rs))) = (events rs ++ evs)%list.
Proof.
  induction l as [|s l IH]; intros rs; simpl.
  - split; [reflexivity|]. exists []. now rewrite app_nil_r.
  - assert (Hcont : forall s' rs1 evs1,
              slot_name s' = slot_name s ->
              events rs1 = (events rs ++ evs1)%list ->
              map slot_name
                (fst (snd (let '(r, (rest', rs2)) := run_loop l rs1 in
                           (r, (s' :: rest', rs2)))))
              = slot_name s :: map slot_name l /\
              exists evs,
                events
                  (snd (snd (let '(r, (rest', rs2)) := run_loop l rs1 in
                             (r, (s' :: rest', rs2)))))
                = (events rs ++ evs)%list).
    { intros s' rs1 evs1 Hs He.
      destruct (IH rs1) as [Hn [evs Hev]].
      destruct (run_loop l rs1) as [r [rest' rs2]]. simpl in *.
      split; [now rewrite Hs, Hn|].
      eexists. rewrite Hev, He, <- app_assoc. reflexivity. }
    destruct s as [e|snm shortcut mapping].
    + destruct (entry_module e) as [m|].
      * pose proof (run_stage_events (entry_name e) m rs) as He.
        destruct (run_stage (entry_name e) m rs) as [[ok m'] rs1].
        simpl in He. destruct ok.
        -- apply (Hcont (ModuleSlot {| entry_name := entry_name e;
                                       entry_module := Some m' |})
                    rs1 _ eq_refl He).
        -- simpl. split; [reflexivity|].
           eexists. rewrite He, <- app_assoc. reflexivity.
      * apply (Hcont (ModuleSlot e) rs []);
          [reflexivity | now rewrite app_nil_r].
    + destruct (run_shortcut_shape snm shortcut rs) as [_ [evs1 He]].
      destruct (run_shortcut snm shortcut rs) as [[u|x] [shortcut' rs1]];
        simpl in He.
      * apply (Hcont (ShortcutSlot snm shortcut' mapping) rs1 _ eq_refl He).
      * simpl. split; [reflexivity|]. eauto.
Qed.

(** X11. [run] keeps the pipeline in shape: after it, with or without a
    failure or an exception, the pipeline has the same slots under the
    same display names in the same order; the loader, the configuration
    data, the shortcut store and the prompt are untouched, and the log has
    only grown. *)
Theorem run_keeps_shape (app : App) :
  map slot_name (modules (snd (run app))) = map slot_name (modules app) /\
  loaded_shortcuts (snd (run app)) = loaded_shortcuts app /\
  modulesList (snd (run app)) = modulesList app /\
  datas (snd (run app)) = datas app /\
  prompt (snd (run app)) = prompt app /\
  exists evs, log (snd (run app)) = (log app ++ evs)%list.
Proof.
  unfold run.
  destruct (run_loop_shape (modules app) {| carried := []; events := log app |})
    as [Hn [evs He]].
  destruct (run_loop (modules app) _) as [r [ms rs]]. simpl in *.
  repeat split; eauto.
Qed.

(** X12. Carried outputs never give a unit an argument it does not take:
    a unit without undeclared arguments keeps exactly its declared
    arguments, in order.  A unit with undeclared arguments receives every
    carried key, and no unit loses an argument. *)
Theorem carry_keys (c : dict value) (m : MirageModule) :
  (dynamicArgs m = false -> keys (args (carry c m)) = keys (args m)) /\
  (dynamicArgs m = true ->
     forall k, In k (keys c) -> contains k (args (carry c m)) = true) /\
  (forall k, contains k (args m) = true ->
     contains k (args (carry c m)) = true).
Proof.
  assert (Hmono : forall c m k, contains k (args m) = true ->
                    contains k (args (carry c m)) = true).
  { clear. induction c as [|[k0 x] c IH]; intros m k H; [exact H|].
    change (carry ((k0, x) :: c) m)
      with (carry c (if contains k0 (args m) || dynamicArgs m
                     then with_args m (setitem (args m) k0 x) else m)).
    apply IH. destruct (contains k0 (args m) || dynamicArgs m); [|exact H].
    simpl. rewrite contains_setitem, H. apply orb_true_r. }
  split; [|split].
  - revert m. induction c as [|[k0 x] c IH]; intros m Hd; [reflexivity|].
    change (carry ((k0, x) :: c) m)
      with (carry c (if contains k0 (args m) || dynamicArgs m
                     then with_args m (setitem (args m) k0 x) else m)).
    rewrite Hd, orb_false_r.
    destruct (contains k0 (args m)) eqn:Hc; [|now apply IH].
    rewrite IH by exact Hd. simpl. now rewrite keys_setitem, Hc.
  - revert m. induction c as [|[k0 x] c IH]; intros m Hd k I; [destruct I|].
    change (carry ((k0, x) :: c) m)
      with (carry c (if contains k0 (args m) || dynamicArgs m
                     then with_args m (setitem (args m) k0 x) else m)).
    rewrite Hd, orb_true_r. destruct I as [E|I].
    + simpl in E. subst k0. apply Hmono. simpl.
      rewrite contains_setitem, String.eqb_refl. reflexivity.
    + apply IH; [exact Hd | exact I].
  - apply Hmono.
Qed.

(** X13. When the first slot of the pipeline is a unit that reports
    failure, [run] executes that unit and nothing else: the log gains the
    execution and the failure message, and the slots after the first are
    left exactly as they were. *)
Theorem run_first_unit_failure_stops (app : App) (e : ModuleEntry)
    (m : MirageModule) (rest : list Slot) :
  modules app = ModuleSlot e :: rest ->
  entry_module e = Some m ->
  success (fst (execute m)) = false ->
  fst (run app) = Return tt /\
  modules (snd (run app))
  = ModuleSlot {| entry_name := entry_name e;
                  entry_module := Some (snd (execute m)) |} :: rest /\
  log (snd (run app))
  = (log app ++
     [Executed (entry_name e) (args m);
      Fail ("Execution of module " ++ entry_name e ++ " failed!")])%list.
Proof.
  intros Hm Em Hf. unfold run. rewrite Hm. simpl. rewrite Em.
  unfold run_stage. simpl carried. rewrite carry_nil.
  destruct (execute m) as [out m']. simpl in Hf. rewrite Hf. simpl.
  repeat split. now rewrite <- app_assoc.
Qed.

(** *** Completion and [set] *)

(** With distinct display names, the routing loop reaches the unit slot
    that has the name. *)
Lemma route_reaches (e : ModuleEntry) (m : MirageModule) (a : string)
    (v : value) (l : list Slot) (store : dict Shortcut) :
  NoDup (map slot_name l) -> In (ModuleSlot e) l ->
  entry_module e = Some m ->
  fst (route sdr (entry_name e) a v l store) = fst (set_entry sdr a v e).
Proof.
  intros Hnd Hin Em. induction l as [|s l IH]; [destruct Hin|].
  simpl in Hnd. inversion Hnd as [|? ? Hs Hnd']; subst.
  destruct Hin as [->|Hin].
  - simpl. rewrite Em, String.eqb_refl.
    now destruct (set_entry sdr a v e).
  - assert (N : slot_name s <> entry_name e).
    { intros E. apply Hs. rewrite E.
      change (entry_name e) with (slot_name (ModuleSlot e)).
      now apply in_map. }
    specialize (IH Hnd' Hin). simpl.
    destruct (route sdr (entry_name e) a v l store) as [r [rest' store']].
    simpl in IH. destruct s as [e0|snm shortcut mapping]; simpl in N.
    + destruct (entry_module e0); [|exact IH].
      destruct (String.eqb_spec (entry_name e) (entry_name e0)) as [E|_];
        [congruence | exact IH].
    + destruct (String.eqb_spec (entry_name e) snm) as [E|_];
        [congruence | exact IH].
Qed.

(** X14. What [_autocompleteParameters] offers for a unit can be set.
    With one unit loaded it offers the unit's declared arguments, and
    [_set] returns [True] for each.  With several slots under distinct
    display names it offers [slot.argument] for every declared argument of
    every unit slot, and [_set] returns [True] for it (names and arguments
    being free of dots). *)
Theorem autocompleted_parameters_settable (app : App) (v : value)
    (e : ModuleEntry) (m : MirageModule) (a : string) :
  In (ModuleSlot e) (modules app) ->
  entry_module e = Some m ->
  In a (keys (args m)) ->
  (length (modules app) = 1 ->
     _autocompleteParameters app = Return (keys (args m)) /\
     fst (_set sdr a v (modules app) (loaded_shortcuts app))
     = Return PyTrue) /\
  (2 <= length (modules app) ->
   NoDup (map slot_name (modules app)) ->
   has_char dot (entry_name e) = false -> has_char dot a = false ->
     (exists offered,
        _autocompleteParameters app = Return offered /\
        In (entry_name e ++ "." ++ a) offered) /\
     fst (_set sdr (entry_name e ++ "." ++ a) v (modules app)
            (loaded_shortcuts app))
     = Return PyTrue).
Proof.
  intros Hin Em Ha.
  assert (Hset : fst (set_entry sdr a v e) = Return PyTrue).
  { unfold set_entry. rewrite Em.
    apply contains_In_keys in Ha. rewrite Ha, orb_true_r. reflexivity. }
  unfold _autocompleteParameters. split.
  - intros Hlen. destruct (modules app) as [|s [|s2 rest]]; try discriminate.
    destruct Hin as [->|[]]. rewrite Em, _set_module_singleton.
    split; [reflexivity | exact Hset].
  - intros Hlen Hnd He Hdot.
    destruct (modules app) as [|s1 [|s2 rest]] eqn:El; simpl in Hlen; try lia.
    split.
    + exists (flat_map (slot_parameters (loaded_shortcuts app))
                (s1 :: s2 :: rest)).
      split; [now destruct s1|].
      apply in_flat_map. exists (ModuleSlot e). split; [exact Hin|].
      simpl. rewrite Em. apply in_map_iff. eauto.
    + rewrite (_set_dotted sdr _ _ v s1 s2 rest _ He Hdot).
      rewrite (route_reaches e m a v _ _ Hnd Hin Em). exact Hset.
Qed.

(** X15. A component that [_autocompleteModules] does not offer makes
    [load] reject the whole expression: the pipeline and the shortcut
    store are the ones before the call. *)
Theorem load_rejects_names_not_offered (module_name m : string)
    (app : App) :
  In m (components module_name) ->
  ~ In m (_autocompleteModules app) ->
  modules (snd (load sdr module_name app)) = modules app /\
  loaded_shortcuts (snd (load sdr module_name app)) = loaded_shortcuts app /\
  prompt (snd (load sdr module_name app)) = prompt app.
Proof.
  intros Hin Hno. unfold _autocompleteModules, getModulesNames in Hno.
  assert (Hun : unresolvable app m).
  { split.
    - unfold Loader_load.
      destruct (get (modulesList app) m) as [x|] eqn:E; [|reflexivity].
      exfalso. apply Hno, in_or_app. left. apply get_In_keys. congruence.
    - destruct (get (loaded_shortcuts app) m) as [x|] eqn:E; [|reflexivity].
      exfalso. apply Hno, in_or_app. right. apply get_In_keys. congruence. }
  unfold load.
  pose proof (load_loop_unresolvable sdr app m
                (Nat.ltb 1 (length (components module_name)))
                (components module_name) Hin Hun 1 (log app)) as H.
  destruct (load_loop sdr app _ (components module_name) 1 (log app))
    as [[[tmp|]|x] lg] eqn:E; simpl; auto.
  exfalso. exact (H tmp lg eq_refl).
Qed.

(** *** A shortcut whose chain names an unknown unit *)

Lemma apply_defaults_no_instance (mp : dict Mapping) (e : ModuleEntry) :
  entry_module e = None -> apply_defaults sdr mp e = (Return tt, e).
Proof.
  intros Em. induction mp as [|[argument mapping] mp IH]; simpl;
    [reflexivity|].
  destruct (mvalue mapping); [|exact IH].
  unfold set_entry. now rewrite Em.
Qed.

(** X16. [load] does not check the units a shortcut expands to: a
    shortcut whose chain is the name of a unit the loader does not know is
    installed all the same, with a member that holds no instance, and a
    [run] of that pipeline raises [AttributeError] before anything is
    executed. *)
Theorem load_installs_unknown_member (app : App) (m n : string)
    (sc : Shortcut) :
  has_char pipe m = false ->
  fst (Loader_load (modulesList app) m) = None ->
  get (loaded_shortcuts app) m = Some sc ->
  sc_modules sc = n -> has_char pipe n = false ->
  fst (Loader_load (modulesList app) n) = None ->
  fst (load sdr m app) = Return tt /\
  modules (snd (load sdr m app))
  = [ShortcutSlot m [{| entry_name := n; entry_module := None |}] m] /\
  fst (run (snd (load sdr m app))) = Raise AttributeError /\
  log (snd (run (snd (load sdr m app)))) = log (snd (load sdr m app)).
Proof.
  intros Hm Hlm Hsc Hn Hpn Hln.
  assert (E : exists lg,
            load sdr m app
            = (Return tt,
               {| modulesList := modulesList app; datas := datas app;
                  loaded_shortcuts := loaded_shortcuts app;
                  modules := [ShortcutSlot m
                                [{| entry_name := n; entry_module := None |}]
                                m];
                  prompt := " << " ++ m ++ " >>~~> "; log := lg |})).
  { unfold load. rewrite (components_single m Hm). simpl.
    destruct (Loader_load (modulesList app) m) as [o msgs]. simpl in Hlm.
    subst o. rewrite Hsc, Hn, (split_no_sep pipe n Hpn). simpl.
    destruct (Loader_load (modulesList app) n) as [o' msgs']. simpl in Hln.
    subst o'. rewrite apply_defaults_no_instance by reflexivity.
    simpl. eauto. }
  destruct E as [lg E]. rewrite E. simpl. auto.
Qed.

End PipelineMore.

(* ===================================================================== *)
(** * The configuration and scenarios *)
(* ===================================================================== *)

Lemma split_join (c : ascii) (ns : list string) :
  ns <> [] -> Forall (fun n => has_char c n = false) ns ->
  split c (join c ns) = ns.
Proof.
  induction ns as [|x [|y r] IH]; intros Hne Hall.
  - congruence.
  - inversion Hall; subst. simpl. now apply split_no_sep.
  - inversion Hall as [|? ? Hx Hr]; subst.
    change (join c (x :: y :: r)) with (x ++ String c (join c (y :: r))).
    rewrite (split_append c x _ Hx), IH; [reflexivity | discriminate | exact Hr].
Qed.

Lemma has_char_join (c sep : ascii) (ns : list string) :
  Ascii.eqb sep c = false -> Forall (fun n => has_char c n = false) ns ->
  has_char c (join sep ns) = false.
Proof.
  intros Hsep. induction ns as [|x [|y r] IH]; intros Hall.
  - reflexivity.
  - now inversion Hall.
  - inversion Hall as [|? ? Hx Hr]; subst.
    change (join sep (x :: y :: r)) with (x ++ String sep (join sep (y :: r))).
    rewrite has_char_append, Hx. simpl. rewrite Hsep. now apply IH.
Qed.

(** X17. Reading back what the configuration file's syntax writes: the
    option value [n1,...,nk(d)] is read as the targets [n1 ... nk] with the
    default [d], and [n1,...,nk] as the same targets without a default, for
    names free of commas and parentheses and a default free of
    parentheses. *)
Theorem parse_mapping_round_trip (ns : list string) (d : string) :
  ns <> [] ->
  Forall (fun n => has_char comma n = false) ns ->
  Forall (fun n => has_char lparen n = false) ns ->
  Forall (fun n => has_char rparen n = false) ns ->
  has_char lparen d = false -> has_char rparen d = false ->
  parse_mapping (join comma ns ++ "(" ++ d ++ ")")
  = {| parameters := ns; mvalue := Some d |} /\
  parse_mapping (join comma ns) = {| parameters := ns; mvalue := None |}.
Proof.
  intros Hne Hc Hl Hr Hdl Hdr.
  pose proof (has_char_join lparen comma ns eq_refl Hl) as HJl.
  pose proof (split_join comma ns Hne Hc) as HJ.
  split.
  - unfold parse_mapping.
    change ("(" ++ d ++ ")") with (String lparen (d ++ String rparen "")).
    assert (H1 : has_char lparen
                   (join comma ns ++ String lparen (d ++ String rparen ""))
                 = true).
    { rewrite has_char_append. simpl. apply orb_true_r. }
    assert (H2 : has_char rparen
                   (join comma ns ++ String lparen (d ++ String rparen ""))
                 = true).
    { rewrite has_char_append. simpl has_char.
      rewrite has_char_append. simpl. rewrite !orb_true_r. reflexivity. }
    rewrite H1, H2. simpl andb. cbv iota.
    rewrite (split_append lparen _ _ HJl).
    rewrite (split_no_sep lparen (d ++ String rparen "")).
    + simpl hd. simpl nth.
      rewrite (split_append rparen d "" Hdr). simpl. now rewrite HJ.
    + rewrite has_char_append, Hdl. reflexivity.
  - unfold parse_mapping. rewrite HJl. simpl. now rewrite HJ.
Qed.

Lemma parse_mapping_round_trip_sample :
  parse_mapping "TARGET,ADDRESS(AA:BB)"
  = {| parameters := ["TARGET"; "ADDRESS"]; mvalue := Some "AA:BB" |} /\
  parse_mapping "TARGET,ADDRESS"
  = {| parameters := ["TARGET"; "ADDRESS"]; mvalue := None |}.
Proof.
  apply (parse_mapping_round_trip ["TARGET"; "ADDRESS"] "AA:BB").
  - discriminate.
  - repeat constructor.
  - repeat constructor.
  - repeat constructor.
  - reflexivity.
  - reflexivity.
Defined.

(** X18. [Config.set] followed by [Config.get] of the same key gives the
    value set, whatever the default; the other keys read as before; and a
    key that was never set reads as the default. *)
Theorem Config_set_get (config : dict value) (key : string) (v : value)
    (default : option value) :
  Config_get (Config_set config key v) key default = Some v /\
  (forall key', key' <> key ->
     Config_get (Config_set config key v) key' default
     = Config_get config key' default) /\
  (contains key config = false -> Config_get config key default = default).
Proof.
  unfold Config_get, Config_set. split; [|split].
  - now rewrite get_setitem_eq.
  - intros key' N. rewrite get_setitem_neq by congruence. reflexivity.
  - intros H. apply contains_false_get in H. now rewrite H.
Qed.

Lemma existsb_filter_keys {V : Type} (f : string -> bool) (d : dict V)
    (a : string) :
  existsb (String.eqb a) (filter f (keys d)) = f a && contains a d.
Proof.
  unfold contains. induction d as [|[k x] d IH]; simpl.
  - now rewrite andb_false_r.
  - destruct (String.eqb_spec k a) as [->|N].
    + destruct (f a) eqn:Ef; simpl.
      * now rewrite String.eqb_refl.
      * rewrite IH. reflexivity.
    + destruct (f k); simpl; [|exact IH].
      rewrite IH. apply not_eq_sym in N. apply String.eqb_neq in N.
      now rewrite N.
Qed.

(** X19. A scenario suppresses the default behaviour of a signal in one
    case only: it has an attribute of the signal's name, the name holds no
    double underscore, and the handler returns a false value that is not
    [None].  A unit without scenario, a scenario without handler, a handler
    that returns [None] or a true value, and a handler that raises all let
    the default behaviour run; and a message is printed exactly when the
    handler raises. *)
Theorem scenarioSignal_suppresses_only_on_false (scenario : option Scenario)
    (signal : string) :
  (fst (scenarioSignal scenario signal) = false <->
     exists sc, scenario = Some sc /\ str_in "__" signal = false /\
                get (attributes sc) signal = Some (Returns PyFalse)) /\
  (snd (scenarioSignal scenario signal) <> [] <->
     exists sc, scenario = Some sc /\ str_in "__" signal = false /\
                get (attributes sc) signal = Some Fails).
Proof.
  destruct scenario as [sc|]; simpl.
  2:{ split; split; try congruence; intros (sc & H & _); discriminate. }
  unfold receiveSignal. rewrite existsb_filter_keys. unfold contains.
  destruct (str_in "__" signal) eqn:Eu; simpl.
  - split; split; try congruence; intros (sc' & _ & H & _); discriminate.
  - destruct (get (attributes sc) signal) as [[r|]|] eqn:Eg; simpl.
    + split; split; try congruence.
      * intros H. exists sc. destruct r; try discriminate. auto.
      * intros (sc' & E & _ & H). injection E as <-.
        rewrite Eg in H. injection H as ->. reflexivity.
      * intros (sc' & E & _ & H). injection E as <-.
        rewrite Eg in H. discriminate.
    + split; split; try congruence.
      * intros (sc' & E & _ & H). injection E as <-.
        rewrite Eg in H. discriminate.
      * intros _. exists sc. auto.
    + split; split; try congruence;
        intros (sc' & E & _ & H); injection E as <-;
        rewrite Eg in H; discriminate.
Qed.

(** ** The further properties on the sample data *)

Lemma set_single_unit_sample :
  let e := sample_entry "ble_connect"
             (sample_unit "ble_connect" [("TARGET", "")] true []) in
  (exists e',
     _set [] "TARGET" "AA:BB" [ModuleSlot e] conn_store
     = (Return PyTrue, ([ModuleSlot e'], conn_store)) /\
     read_entry [] "TARGET" e' = Some "AA:BB" /\
     entry_name e' = "ble_connect" /\
     forall nm', nm' <> "TARGET" -> read_entry [] nm' e' = read_entry [] nm' e) /\
  _set [] "ADDRESS" "AA:BB" [ModuleSlot e] conn_store
  = (Raise IncorrectParameter, ([ModuleSlot e], conn_store)).
Proof.
  intros e. split.
  - apply (proj1 (set_single_unit [] "TARGET" "AA:BB" e _ conn_store eq_refl)).
    reflexivity.
  - apply (proj2 (set_single_unit [] "ADDRESS" "AA:BB" e _ conn_store eq_refl)).
    reflexivity.
Defined.

(** After [load] of [scan|scan], setting [scan1.INTERFACE] keeps the two
    slots, commits the value in the mapping of [scan], and the chart of
    [scan2] shows the value as well. *)
Lemma set_dotted_changes_one_slot_sample :
  let app := snd (load [] "scan|scan" sample_app) in
  let res :=
    _set [] "scan1.INTERFACE" "hci9" (modules app) (loaded_shortcuts app) in
  map slot_name (fst (snd res)) = ["scan1"; "scan2"] /\
  snd (snd res) = commit (loaded_shortcuts app) "scan" "INTERFACE" "hci9" /\
  map rows (snd (showargs app))
  = [[["scan1.INTERFACE"; "hci1"]]; [["scan2.INTERFACE"; "hci1"]]] /\
  map rows (snd (showargs (set [] "scan1.INTERFACE" "hci9" app)))
  = [[["scan1.INTERFACE"; "hci9"]]; [["scan2.INTERFACE"; "hci9"]]].
Proof.
  intros app res.
  destruct (set_dotted_changes_one_slot [] "scan1" "INTERFACE" "hci9"
              (modules app) (loaded_shortcuts app))
    as (H1 & _ & _); [apply le_n | reflexivity | reflexivity |].
  split; [exact H1|]. repeat split; reflexivity.
Defined.

Lemma run_first_unit_failure_stops_sample :
  let app := with_modules sample_app (carrying_pipeline false) in
  fst (run app) = Return tt /\
  log (snd (run app))
  = [Executed "ble_scan1" [];
     Fail "Execution of module ble_scan1 failed!"].
Proof.
  intros app.
  destruct (run_first_unit_failure_stops app
              (sample_entry "ble_scan1"
                 (sample_unit "ble_scan" [] false [("TARGET", "AA:BB")]))
              _ _ eq_refl eq_refl eq_refl) as (H1 & _ & H3).
  split; [exact H1 | exact H3].
Defined.

Lemma autocompleted_parameters_settable_sample :
  let app := with_modules sample_app (carrying_pipeline true) in
  fst (_set [] "ble_connect2.TARGET" "CC:DD" (modules app)
         (loaded_shortcuts app))
  = Return PyTrue.
Proof.
  intros app.
  assert (Hin : In (ModuleSlot
                      (sample_entry "ble_connect2"
                         (sample_unit "ble_connect" [("TARGET", "user")]
                            true [])))
                  (modules app)) by (simpl; auto).
  apply (proj2 (autocompleted_parameters_settable [] app "CC:DD" _ _ "TARGET"
                  Hin eq_refl (or_introl eq_refl))).
  - simpl. lia.
  - simpl. repeat constructor; simpl; intuition discriminate.
  - reflexivity.
  - reflexivity.
Defined.

Lemma load_installs_unknown_member_sample :
  fst (load [] "ghost" sample_app_dangling) = Return tt /\
  fst (run (snd (load [] "ghost" sample_app_dangling)))
  = Raise AttributeError.
Proof.
  destruct (load_installs_unknown_member [] sample_app_dangling "ghost" "nope"
              _ eq_refl eq_refl eq_refl eq_refl eq_refl eq_refl)
    as (H1 & _ & H3 & _).
  split; [exact H1 | exact H3].
Defined.

Lemma load_rejects_names_not_offered_sample :
  let app := with_modules sample_app (carrying_pipeline true) in
  modules (snd (load [] "x|nope" app)) = carrying_pipeline true.
Proof.
  intros app.
  apply (load_rejects_names_not_offered [] "x|nope" "nope" app).
  - simpl. auto.
  - simpl. intuition discriminate.
Defined.

Lemma startTask_only_stopped_sample :
  fst (Tasks.startTask "/tmp/mirage" 4250 "scan" Tasks.sample_tasks) = true /\
  Tasks.startTask "/tmp/mirage" 4250 "sniff" Tasks.sample_tasks
  = (false, Tasks.sample_tasks).
Proof.
  split.
  - apply (proj2 (proj1 (startTask_only_stopped "/tmp/mirage" 4250 "scan"
                           Tasks.sample_tasks))).
    eexists. split; reflexivity.
  - reflexivity.
Defined.

Lemma apply_config_overrides_declared_sample :
  let ds := [("ble_scan", [("IFACE", "hci5"); ("BOGUS", "1")])] in
  let u := sample_unit "ble_scan" [("IFACE", "hci0"); ("INTERFACE", "")]
             true [] in
  get (args (apply_config ds "ble_scan" u)) "IFACE" = Some "hci5" /\
  get (args (apply_config ds "ble_scan" u)) "INTERFACE" = Some "" /\
  get (args (apply_config ds "ble_scan" u)) "BOGUS" = None.
Proof.
  intros ds u.
  destruct (apply_config_overrides_declared ds "ble_scan" u)
    as (_ & H1 & H2 & H3).
  split; [|split].
  - apply H1; reflexivity.
  - rewrite H2; reflexivity.
  - apply H3; reflexivity.
Defined.

(* ===================================================================== *)
(** * What [showargs] shows and what [set] reports *)
(* ===================================================================== *)

Section Reporting.

Variable sdr : list string.

Lemma showargs_loop_multi (store : dict Shortcut) (l : list Slot) :
  (forall e, In (ModuleSlot e) l -> entry_module e <> None) ->
  fst (showargs_loop true store l) = Return tt /\
  flat_map shown_names (snd (showargs_loop true store l))
  = flat_map (slot_parameters store) l /\
  map title (snd (showargs_loop true store l)) = map slot_name l.
Proof.
  induction l as [|s l IH]; intros H; [simpl; auto|].
  destruct IH as (I1 & I2 & I3); [intros e I; apply H; now right|].
  cbn [showargs_loop flat_map map].
  destruct (showargs_loop true store l) as [r cs].
  cbn [fst snd] in I1, I2, I3.
  destruct s as [e|nm shortcut mapping].
  - destruct (entry_module e) as [m|] eqn:Em.
    + cbn [fst snd flat_map map title slot_name slot_parameters].
      rewrite Em, I2, I3. repeat split; auto. f_equal.
      unfold shown_names, keys. cbn [rows]. rewrite !map_map.
      reflexivity.
    + exfalso. apply (H e); [now left | exact Em].
  - cbn [fst snd flat_map map title slot_name slot_parameters].
    rewrite I2, I3. repeat split; auto. f_equal.
    unfold shown_names, keys. cbn [rows]. rewrite !map_map.
    reflexivity.
Qed.

(** X20. For a pipeline whose unit slots all hold an instance, as [load]
    builds them, [showargs] draws one chart per slot, titled with the
    slot's display name, and the parameter names it shows are exactly the
    names [_autocompleteParameters] offers, in the same order. *)
Theorem showargs_shows_completions (app : App) :
  (forall e, In (ModuleSlot e) (modules app) -> entry_module e <> None) ->
  fst (showargs app) = Return tt /\
  map title (snd (showargs app)) = map slot_name (modules app) /\
  _autocompleteParameters app
  = Return (flat_map shown_names (snd (showargs app))).
Proof.
  intros H. unfold showargs, _autocompleteParameters.
  destruct (modules app) as [|s1 [|s2 rest]] eqn:El.
  - simpl. auto.
  - simpl. destruct s1 as [e|nm shortcut mapping].
    + destruct (entry_module e) as [m|] eqn:Em.
      * simpl. repeat split. unfold shown_names. simpl.
        rewrite app_nil_r, map_map. reflexivity.
      * exfalso. apply (H e); [now left | exact Em].
    + simpl. repeat split. unfold shown_names. simpl.
      rewrite app_nil_r, map_map. reflexivity.
  - change (Nat.ltb 1 (length (s1 :: s2 :: rest))) with true.
    destruct (showargs_loop_multi (loaded_shortcuts app) (s1 :: s2 :: rest) H)
      as (H1 & H2 & H3).
    rewrite H2. repeat split; auto. now destruct s1.
Qed.

(** X21. What [set] reports.  With no module loaded it prints
    [No module loaded!]; with several slots and a name without a dot it
    prints the message about multiple modules; with several slots and a
    name with more than one dot it reports the failed tuple assignment
    as an error, not as a failure.  In the three cases the pipeline and
    the shortcut store are left as they were. *)
Theorem set_reports (nm : string) (v : value) (app : App) :
  (modules app = [] ->
   set sdr nm v app
   = with_pipeline app (modules app) (loaded_shortcuts app)
       (log app ++ [Fail "No module loaded!"])%list) /\
  (2 <= length (modules app) -> has_char dot nm = false ->
   set sdr nm v app
   = with_pipeline app (modules app) (loaded_shortcuts app)
       (log app ++
        [Fail "No corresponding parameter! Multiple modules are loaded, did you indicate the module's name?"])%list) /\
  (2 <= length (modules app) -> has_char dot nm = true ->
   length (split dot nm) <> 2 ->
   exists msg,
     set sdr nm v app
     = with_pipeline app (modules app) (loaded_shortcuts app)
         (log app ++ [Error msg])%list).
Proof.
  unfold set. split; [|split].
  - intros ->. reflexivity.
  - intros Hlen Hd.
    destruct (modules app) as [|s1 [|s2 rest]]; simpl in Hlen; try lia.
    unfold _set. rewrite Hd. now destruct s1.
  - intros Hlen Hd Hs.
    destruct (modules app) as [|s1 [|s2 rest]]; simpl in Hlen; try lia.
    unfold _set. rewrite Hd.
    destruct (split dot nm) as [|a [|b [|c r]]]; simpl in Hs; try lia;
      destruct s1; eexists; reflexivity.
Qed.

(** X22. The targets of a shortcut over a chain of several units have to
    be dotted.  With at least two members, a first target without a dot
    makes [_set] raise [MultipleModulesLoaded], and a first target
    [P.N] whose prefix [P] names no member makes it return [None] without
    any exception; in both cases no member is changed and the mapping's
    value is not updated. *)
Theorem set_shortcut_unroutable_target (nm : string) (v : value)
    (snm : string) (members : list ModuleEntry) (ref : string)
    (store : dict Shortcut) (mp : Mapping) (t : string) (ts : list string) :
  mapping_entry store ref nm = Some mp ->
  parameters mp = t :: ts ->
  2 <= length members ->
  (has_char dot t = false ->
   _set sdr nm v [ShortcutSlot snm members ref] store
   = (Raise MultipleModulesLoaded,
      ([ShortcutSlot snm members ref], store))) /\
  (forall P N, t = P ++ "." ++ N ->
     has_char dot P = false -> has_char dot N = false ->
     find_entry P members = None ->
     _set sdr nm v [ShortcutSlot snm members ref] store
     = (Return PyNone, ([ShortcutSlot snm members ref], store))).
Proof.
  intros Hmp Hp Hlen. unfold mapping_entry in Hmp.
  unfold _set, set_shortcut. rewrite Hmp, Hp. simpl fan_out.
  rewrite (_set_entries_multi sdr t v members Hlen). split.
  - intros Hd. rewrite Hd. reflexivity.
  - intros P N -> HP HN Hf.
    rewrite has_char_dotted, (split_dotted P N HP HN).
    pose proof (route_entries_result sdr P N v members) as Hr.
    pose proof (route_entries_find sdr P N P v members) as Hfind.
    rewrite Hf in Hr. rewrite Hf, String.eqb_refl in Hfind.
    assert (Hsame : snd (route_entries sdr P N v members) = members).
    { clear - Hf. induction members as [|e l IH]; simpl in *; [reflexivity|].
      destruct (entry_module e).
      - destruct (String.eqb P (entry_name e)); [discriminate|].
        destruct (route_entries sdr P N v l) as [r l']. simpl in *.
        now rewrite IH.
      - destruct (route_entries sdr P N v l) as [r l']. simpl in *.
        now rewrite IH. }
    destruct (route_entries sdr P N v members) as [r l']. simpl in *.
    subst r l'. rewrite fan_out_falsy by reflexivity. reflexivity.
Qed.

End Reporting.

(** The three slots of the sample pipeline are charted under their display
    names, and the names charted are the names offered. *)
Lemma showargs_shows_completions_sample :
  _autocompleteParameters (with_modules sample_app failing_shortcut_pipeline)
  = Return ["scan1.INTERFACE"; "ble_connect2.TARGET"; "x3.A"] /\
  map title
    (snd (showargs (with_modules sample_app failing_shortcut_pipeline)))
  = ["scan1"; "ble_connect2"; "x3"].
Proof.
  destruct (showargs_shows_completions
              (with_modules sample_app failing_shortcut_pipeline))
    as (H1 & H2 & H3).
  - intros e [H|[H|[H|[]]]]; try discriminate H;
      injection H as <-; discriminate.
  - split; [rewrite H3 | rewrite H2]; reflexivity.
Defined.

(** The three reports of [set] on the sample application. *)
Lemma set_reports_sample :
  log (set [] "A" "1" sample_app) = [Fail "No module loaded!"] /\
  log (set [] "TARGET" "1" (with_modules sample_app (carrying_pipeline true)))
  = [Fail "No corresponding parameter! Multiple modules are loaded, did you indicate the module's name?"] /\
  (exists msg,
     log (set [] "a.b.c" "1"
            (with_modules sample_app (carrying_pipeline true)))
     = [Error msg]).
Proof.
  split; [|split].
  - rewrite (proj1 (set_reports [] "A" "1" sample_app)); reflexivity.
  - rewrite (proj1 (proj2 (set_reports [] "TARGET" "1"
                             (with_modules sample_app (carrying_pipeline true)))));
      [reflexivity | simpl; lia | reflexivity].
  - destruct (proj2 (proj2 (set_reports [] "a.b.c" "1"
                              (with_modules sample_app (carrying_pipeline true)))))
      as [msg Hm]; [simpl; lia | reflexivity | vm_compute; lia |].
    exists msg. rewrite Hm. reflexivity.
Defined.

(** The shortcut [pair] with the target [TARGET], and with the target
    [nope.TARGET]. *)
Lemma set_shortcut_unroutable_target_sample :
  _set [] "TARGET" "AA:BB" [ShortcutSlot "pair" pair_members "pair"]
    (pair_store "TARGET")
  = (Raise MultipleModulesLoaded,
     ([ShortcutSlot "pair" pair_members "pair"], pair_store "TARGET")) /\
  _set [] "TARGET" "AA:BB" [ShortcutSlot "pair" pair_members "pair"]
    (pair_store "nope.TARGET")
  = (Return PyNone,
     ([ShortcutSlot "pair" pair_members "pair"], pair_store "nope.TARGET")).
Proof.
  split.
  - refine (proj1 (set_shortcut_unroutable_target [] "TARGET" "AA:BB" "pair"
                     pair_members "pair" (pair_store "TARGET")
                     (parse_mapping "TARGET") "TARGET" [] _ _ _) _);
      [reflexivity | reflexivity | simpl; lia | reflexivity].
  - refine (proj2 (set_shortcut_unroutable_target [] "TARGET" "AA:BB" "pair"
                     pair_members "pair" (pair_store "nope.TARGET")
                     (parse_mapping "nope.TARGET") "nope.TARGET" [] _ _ _)
              "nope" "TARGET" _ _ _ _);
      [reflexivity | reflexivity | simpl; lia
      | reflexivity | reflexivity | reflexivity | reflexivity].
Defined.
